(** * vite-plugin-entry-dag: the entry dependency graph builder

    A shallow embedding of [src/index.ts] (the [generateBundle] hook of the
    plugin) and the properties of the graph it builds.

    Conventions of the embedding:
    - module identifiers are [string]s, sequences of code units below 256
      (the Latin-1 part of the UTF-16 strings of the host language), with
      the case mapping and the white space of that range;
    - the JS [Map<string, number>] and [Set<string>] objects are stdpp's
      [gmap string nat] and [gset string]; arrays are lists, [push] appends
      at the end;
    - the closure variables mutated by [ensureNode] and [addEdge] are one
      record that is threaded through the walk;
    - Rollup's [this.getModuleInfo] looks an identifier up in the module
      graph of the build, a finite table: it is a [gmap string ModuleInfo];
    - [path.relative], [path.extname] and [process.cwd] belong to Node; the
      builder is parametrised by them (class [PathLib]) and module [Posix]
      gives the POSIX implementation used by the concrete runs;
    - serialising the result and writing the file are left to the host: the
      model stops at the [result] object handed to [JSON.stringify]. *)

From stdpp Require Import gmap strings list sorting.
From Stdlib Require Import Ascii.

Local Open Scope string_scope.
Local Open Scope list_scope.
Local Open Scope nat_scope.

(* [set_solver] clears hypotheses that are already gone. *)
#[local] Set Warnings "-clear-no-such-hyp,-register-all".

(** ** String primitives of the host language *)

Module Js.

(** [s.startsWith(p)] *)
Fixpoint startsWith (p s : string) : bool :=
  match p, s with
  | EmptyString, _ => true
  | String a p', String b s' => if Ascii.eqb a b then startsWith p' s' else false
  | String _ _, EmptyString => false
  end.

(** [s.includes(needle)] *)
Fixpoint includes (needle s : string) : bool :=
  startsWith needle s ||
  match s with
  | EmptyString => false
  | String _ s' => includes needle s'
  end.

(** [s.split(c)] for a one-character separator: never the empty list. *)
Fixpoint split (c : ascii) (s : string) : list string :=
  match s with
  | EmptyString => [EmptyString]
  | String a s' =>
      if Ascii.eqb a c then EmptyString :: split c s'
      else match split c s' with
           | [] => [String a EmptyString]
           | hd :: tl => String a hd :: tl
           end
  end.

(** Lower case of a code unit below 256: A-Z, and the letters from U+00C0
    to U+00DE (U+00D7, the multiplication sign, is no letter). *)
Definition lowerChar (a : ascii) : ascii :=
  let n := nat_of_ascii a in
  if ((65 <=? n) && (n <=? 90)) || ((192 <=? n) && (n <=? 222) && negb (n =? 215))
  then ascii_of_nat (n + 32) else a.

(** [s.toLowerCase()] *)
Fixpoint toLowerCase (s : string) : string :=
  match s with
  | EmptyString => EmptyString
  | String a s' => String (lowerChar a) (toLowerCase s')
  end.

(** White space removed by [trim], among the code units below 256: TAB, LF,
    VT, FF, CR, SPACE and the no-break space U+00A0. *)
Definition isSpace (a : ascii) : bool :=
  let n := nat_of_ascii a in
  ((9 <=? n) && (n <=? 13)) || (n =? 32) || (n =? 160).

Fixpoint trimStart (s : string) : string :=
  match s with
  | EmptyString => EmptyString
  | String a s' => if isSpace a then trimStart s' else s
  end.

Fixpoint trimEnd (s : string) : string :=
  match s with
  | EmptyString => EmptyString
  | String a s' =>
      match trimEnd s' with
      | EmptyString => if isSpace a then EmptyString else String a EmptyString
      | t => String a t
      end
  end.

(** [s.trim()] *)
Definition trim (s : string) : string := trimEnd (trimStart s).

(** Truthiness of a string: only the empty string is falsy. *)
Definition truthy (s : string) : bool :=
  match s with EmptyString => false | _ => true end.

(** [a || b] on strings *)
Definition or (a b : string) : string := if truthy a then a else b.

End Js.

(** ** Node's [path] module, as far as the plugin uses it *)

Class PathLib := {
  relative : string → string → string;
  extname : string → string;
  cwd : string
}.

Module Posix.

Definition slash : ascii := "/"%char.
Definition dot : ascii := "."%char.

Fixpoint join (segs : list string) : string :=
  match segs with
  | [] => EmptyString
  | [s] => s
  | s :: rest => s +:+ "/" +:+ join rest
  end.

(** Segments of an absolute path after [normalizeString]: empty segments
    and [.] vanish, [..] removes the segment before it (nothing at the
    root). [acc] is the reversed result so far. *)
Fixpoint normSegs (acc : list string) (segs : list string) : list string :=
  match segs with
  | [] => rev acc
  | s :: rest =>
      if String.eqb s "" || String.eqb s "." then normSegs acc rest
      else if String.eqb s ".." then normSegs (tail acc) rest
      else normSegs (s :: acc) rest
  end.

(** [path.resolve(p)] with working directory [wd], as a segment list. *)
Definition resolveSegs (wd p : string) : list string :=
  if Js.startsWith "/" p then normSegs [] (Js.split slash p)
  else normSegs [] (Js.split slash wd ++ Js.split slash p).

Fixpoint dropCommon (a b : list string) : list string * list string :=
  match a, b with
  | x :: a', y :: b' => if String.eqb x y then dropCommon a' b' else (a, b)
  | _, _ => (a, b)
  end.

(** [path.relative(from, to)] *)
Definition relative (wd from to : string) : string :=
  let '(up, down) := dropCommon (resolveSegs wd from) (resolveSegs wd to) in
  join (map (λ _, "..") up ++ down).

(** Last component of a path, trailing separators ignored. *)
Definition lastComponent (p : string) : string :=
  default "" (last (filter (λ s, s ≠ "") (Js.split slash p))).

(** Splits a component at its last dot: the text before it and the text
    from it on; [None] when there is no dot. *)
Fixpoint splitLastDot (s : string) : option (string * string) :=
  match s with
  | EmptyString => None
  | String a s' =>
      match splitLastDot s' with
      | Some (pre, ext) => Some (String a pre, ext)
      | None => if Ascii.eqb a dot then Some (EmptyString, s) else None
      end
  end.

(** [path.extname(p)]: from the last dot of the last component on; empty
    when there is no dot, when the component starts with its last dot, and
    for the component [..]. *)
Definition extname (p : string) : string :=
  let c := lastComponent p in
  match splitLastDot c with
  | None => ""
  | Some (pre, ext) =>
      if String.eqb pre "" || String.eqb c ".." then "" else ext
  end.

Definition lib (wd : string) : PathLib :=
  Build_PathLib (relative wd) extname wd.

End Posix.

(** ** Data model *)

Inductive EdgeKind := static | dynamic.

Record DagNode := { n_id : string; n_order : nat }.

Record DagEdge := { e_source : string; e_target : string; e_kind : EdgeKind }.

Record DagOutput := {
  out_nodes : list DagNode;
  out_edges : list DagEdge;
  out_entries : list string
}.

#[global] Instance EdgeKind_eq_dec : EqDecision EdgeKind.
Proof. solve_decision. Defined.
#[global] Instance DagNode_eq_dec : EqDecision DagNode.
Proof. solve_decision. Defined.
#[global] Instance DagEdge_eq_dec : EqDecision DagEdge.
Proof. solve_decision. Defined.

(** What [getModuleInfo] exposes of a module. *)
Record ModuleInfo := {
  importedIds : list string;
  dynamicallyImportedIds : list string
}.

(** The [extensions] option as [Array.isArray] sees it. *)
Inductive ExtensionsOption :=
| NotAnArray
| ArrayOf (exts : list string).

Record Options := {
  entries : list string;
  extensions : ExtensionsOption
}.

(** The resolved configuration of the host, [config.root] being optional. *)
Record ResolvedConfig := { cfg_root : option string }.

(** ** Extension configuration *)

Definition normalizeExt (ext : string) : string :=
  let e := Js.toLowerCase (Js.trim ext) in
  if Js.startsWith "." e then e else "." +:+ e.

Definition defaultExts : list string := [".js"; ".jsx"; ".ts"; ".tsx"; ".vue"].

Definition configuredExts (extensions : ExtensionsOption) : list string :=
  match extensions with
  | ArrayOf exts =>
      if (0 <? length exts)%nat then map normalizeExt exts else defaultExts
  | NotAnArray => defaultExts
  end.

Definition supportedExtsOf (extensions : ExtensionsOption) : gset string :=
  list_to_set (configuredExts extensions).

(** ** Skip policy *)

(** The character [\0] that marks the virtual modules of the host. *)
Definition NUL : ascii := "000"%char.

Definition shouldSkip (id : string) : bool :=
  if negb (Js.truthy id) then true
  else if Js.includes "node_modules" id then true
  else if Js.startsWith (String NUL EmptyString) id then true
  else false.

Definition normalizeId (id : string) : string :=
  hd EmptyString (Js.split "?"%char id).

(** ** The mutable state of one [generateBundle] call *)

Record Builder := {
  nodes : list DagNode;
  edges : list DagEdge;
  nodeIdToOrder : gmap string nat;
  edgeKeySet : gset string;
  entryRelIds : list string;
  orderCounter : nat
}.

Definition emptyBuilder : Builder :=
  {| nodes := []; edges := []; nodeIdToOrder := ∅; edgeKeySet := ∅;
     entryRelIds := []; orderCounter := 1 |}.

(** The state of the walk of one entry: the builder, the entry's [visited]
    set, and (ghost) the identifiers passed to [getModuleInfo], in call
    order. *)
Record Walk := {
  dag : Builder;
  visited : gset string;
  oracleLog : list string
}.

Definition onDag (f : Builder → Builder) (w : Walk) : Walk :=
  {| dag := f (dag w); visited := visited w; oracleLog := oracleLog w |}.

Definition markVisited (id : string) (w : Walk) : Walk :=
  {| dag := dag w; visited := {[id]} ∪ visited w; oracleLog := oracleLog w |}.

Definition logQuery (id : string) (w : Walk) : Walk :=
  {| dag := dag w; visited := visited w; oracleLog := oracleLog w ++ [id] |}.

Definition kindName (kind : EdgeKind) : string :=
  match kind with static => "static" | dynamic => "dynamic" end.

Definition edgeKey (fromRel toRel : string) (kind : EdgeKind) : string :=
  fromRel +:+ "|" +:+ toRel +:+ "|" +:+ kindName kind.

Definition keyOf (e : DagEdge) : string :=
  edgeKey (e_source e) (e_target e) (e_kind e).

Definition addEdge (fromRel toRel : string) (kind : EdgeKind) (b : Builder) : Builder :=
  let key := edgeKey fromRel toRel kind in
  if bool_decide (key ∈ edgeKeySet b) then b
  else {| nodes := nodes b;
          edges := edges b ++ [{| e_source := fromRel; e_target := toRel; e_kind := kind |}];
          nodeIdToOrder := nodeIdToOrder b;
          edgeKeySet := {[key]} ∪ edgeKeySet b;
          entryRelIds := entryRelIds b;
          orderCounter := orderCounter b |}.

Definition hasNode (relId : string) (b : Builder) : bool :=
  bool_decide (is_Some (nodeIdToOrder b !! relId)).

Definition pushEntry (relId : string) (b : Builder) : Builder :=
  {| nodes := nodes b; edges := edges b; nodeIdToOrder := nodeIdToOrder b;
     edgeKeySet := edgeKeySet b; entryRelIds := entryRelIds b ++ [relId];
     orderCounter := orderCounter b |}.

(** [nodes.sort((a, b) => a.order - b.order)]: a stable sort by [order]. *)
Fixpoint insertByOrder (n : DagNode) (l : list DagNode) : list DagNode :=
  match l with
  | [] => [n]
  | m :: l' =>
      if (n_order n <? n_order m)%nat then n :: l else m :: insertByOrder n l'
  end.

Definition sortByOrder (l : list DagNode) : list DagNode :=
  foldl (λ acc n, insertByOrder n acc) [] l.

Definition resultOf (b : Builder) : DagOutput :=
  {| out_nodes := sortByOrder (nodes b);
     out_edges := edges b;
     out_entries := entryRelIds b |}.

(** ** The graph builder *)

Section Builder.

Context `{PathLib}.
Variable root : string.
Variable supportedExts : gset string.
Variable moduleGraph : gmap string ModuleInfo.

Definition getModuleInfo (id : string) : option ModuleInfo := moduleGraph !! id.

Definition toRel (absId : string) : string :=
  let clean := normalizeId absId in
  let rel := relative root clean in
  Js.or rel clean.

Definition hasSupportedExt (id : string) : bool :=
  bool_decide (Js.toLowerCase (extname (normalizeId id)) ∈ supportedExts).

Definition ensureNode (absId : string) (b : Builder) : string * Builder :=
  let relId := toRel absId in
  if hasNode relId b then (relId, b)
  else
    let m := <[relId := orderCounter b]> (nodeIdToOrder b) in
    (relId,
     {| nodes := nodes b ++ [{| n_id := relId; n_order := default 0 (m !! relId) |}];
        edges := edges b;
        nodeIdToOrder := m;
        edgeKeySet := edgeKeySet b;
        entryRelIds := entryRelIds b;
        orderCounter := S (orderCounter b) |}).

(** Head of [traverse]: the node of the current identifier. *)
Definition enter (id fromRel : string) (b : Builder) : Builder :=
  if hasSupportedExt id && negb (hasNode fromRel b) then (ensureNode id b).2 else b.

(** Node and edge bookkeeping of one dependency that is not skipped. *)
Definition recordDep (id fromRel : string) (kind : EdgeKind) (dep : string)
    (b : Builder) : Builder :=
  let depRel := toRel dep in
  if hasSupportedExt id && hasSupportedExt dep then
    addEdge fromRel depRel kind
      (if negb (hasNode depRel b) then (ensureNode dep b).2 else b)
  else if hasSupportedExt dep && negb (hasNode depRel b) then (ensureNode dep b).2
  else b.

(** One [for (const dep of ...)] loop of [traverse]; [rec] is the
    recursive call. *)
Fixpoint forDeps (rec : string → Walk → option Walk) (id fromRel : string)
    (kind : EdgeKind) (deps : list string) (w : Walk) : option Walk :=
  match deps with
  | [] => Some w
  | dep :: rest =>
      if shouldSkip dep then forDeps rec id fromRel kind rest w
      else
        let w1 := onDag (recordDep id fromRel kind dep) w in
        if bool_decide (dep ∈ visited w1)
        then forDeps rec id fromRel kind rest w1
        else w2 ← rec dep (markVisited dep w1);
             forDeps rec id fromRel kind rest w2
  end.

(** [traverse]; [None] only when the recursion is deeper than [fuel]. *)
Fixpoint traverse (fuel : nat) (id : string) (w : Walk) : option Walk :=
  match fuel with
  | O => None
  | S fuel' =>
      let info := getModuleInfo id in
      let fromRel := toRel id in
      let w1 := onDag (enter id fromRel) (logQuery id w) in
      match info with
      | None => Some w1
      | Some info =>
          w2 ← forDeps (traverse fuel') id fromRel static (importedIds info) w1;
          forDeps (traverse fuel') id fromRel dynamic (dynamicallyImportedIds info) w2
      end
  end.

(** The walk of one non-empty entry, from the builder [b]. *)
Definition registerEntry (entry : string) (b : Builder) : Builder :=
  if hasSupportedExt entry
  then let '(entryRel, b') := ensureNode entry b in pushEntry entryRel b'
  else b.

Definition walkEntry (fuel : nat) (entry : string) (b : Builder) : option Walk :=
  let w := {| dag := registerEntry entry b; visited := ∅; oracleLog := [] |} in
  traverse fuel entry (markVisited entry w).

(** The body of the loop over the entries. *)
Definition processEntry (fuel : nat) (entry : string) (b : Builder) : option Builder :=
  if negb (Js.truthy entry) then Some b
  else dag <$> walkEntry fuel entry b.

Fixpoint forEntries (fuel : nat) (ents : list string) (b : Builder) : option Builder :=
  match ents with
  | [] => Some b
  | entry :: rest => b' ← processEntry fuel entry b; forEntries fuel rest b'
  end.

Definition buildDag (fuel : nat) (ents : list string) : option DagOutput :=
  resultOf <$> forEntries fuel ents emptyBuilder.

End Builder.

(** Every identifier that occurs as a dependency in the module graph. *)
Definition depIds (g : gmap string ModuleInfo) : gset string :=
  list_to_set
    (map_to_list g ≫= λ kv, importedIds kv.2 ++ dynamicallyImportedIds kv.2).

(** A recursion depth that no walk over [g] exceeds. *)
Definition enoughFuel (g : gmap string ModuleInfo) : nat := S (size (depIds g)).

(** What the hook does: nothing without a resolved configuration, else the
    [result] object that is serialised. *)
Inductive Outcome :=
| NotGenerated
| Generated (result : DagOutput).

Definition generateBundle `{PathLib} (fuel : nat) (config : option ResolvedConfig)
    (options : Options) (moduleGraph : gmap string ModuleInfo) : option Outcome :=
  match config with
  | None => Some NotGenerated
  | Some cfg =>
      let root := Js.or (default "" (cfg_root cfg)) cwd in
      Generated <$>
        buildDag root (supportedExtsOf (extensions options)) moduleGraph fuel (entries options)
  end.




(** * The tree builder

    The other source file of the repository is the plugin in its tree form:
    for each entry it collects the tree of the modules the entry depends
    on, each module once, numbered in the order in which the calls
    return. *)

Module TreePlugin.

Inductive ModuleNode :=
| mkNode (id : string) (deps : list ModuleNode) (order : nat).

Definition m_id (t : ModuleNode) : string := let 'mkNode id _ _ := t in id.
Definition m_deps (t : ModuleNode) : list ModuleNode := let 'mkNode _ deps _ := t in deps.
Definition m_order (t : ModuleNode) : nat := let 'mkNode _ _ order := t in order.

(** The two variables of the walk of one entry. *)
Record Collector := {
  visited : gset string;
  counter : nat
}.

(** The guard of [collectDeps]: the identifiers it returns [null] for. *)
Definition rejected (id : string) (st : Collector) : bool :=
  negb (Js.truthy id) || bool_decide (id ∈ visited st) || Js.includes "node_modules" id.

(** One [forEach] of [collectDeps]: [depsNodes] grows by the nodes that the
    recursive call [rec] returns. *)
Fixpoint forEachDep (rec : string → Collector → option (option ModuleNode * Collector))
    (deps : list string) (depsNodes : list ModuleNode) (st : Collector)
    : option (list ModuleNode * Collector) :=
  match deps with
  | [] => Some (depsNodes, st)
  | dep :: rest =>
      '(node, st1) ← rec dep st;
      forEachDep rec rest
        (match node with Some n => depsNodes ++ [n] | None => depsNodes end) st1
  end.

(** [collectDeps]; the outer [None] only when the recursion is deeper than
    [fuel], the inner one is the [null] of the source. *)
Fixpoint collectDeps (moduleGraph : gmap string ModuleInfo) (fuel : nat) (id : string)
    (st : Collector) : option (option ModuleNode * Collector) :=
  match fuel with
  | O => None
  | S fuel' =>
      if rejected id st then Some (None, st)
      else
        let st1 := {| visited := {[id]} ∪ visited st; counter := counter st |} in
        match moduleGraph !! id with
        | None =>
            Some (Some (mkNode id [] (counter st1)),
                  {| visited := visited st1; counter := S (counter st1) |})
        | Some info =>
            '(d1, st2) ← forEachDep (collectDeps moduleGraph fuel') (importedIds info) [] st1;
            '(d2, st3) ← forEachDep (collectDeps moduleGraph fuel')
                           (dynamicallyImportedIds info) d1 st2;
            Some (Some (mkNode id d2 (counter st3)),
                  {| visited := visited st3; counter := S (counter st3) |})
        end
  end.

(** The tree of one entry: a fresh [visited] set and the counter at 1. *)
Definition collectEntry (moduleGraph : gmap string ModuleInfo) (fuel : nat)
    (entry : string) : option (option ModuleNode) :=
  fst <$> collectDeps moduleGraph fuel entry {| visited := ∅; counter := 1 |}.

(** [result] is a plain object, [const result = {}]: the map holds its own
    properties, which are what [JSON.stringify(result)] writes.  The
    assignment [result[key] = tree] makes or replaces the own property [key],
    but for the key [__proto__]: on an object without an own property of that
    name the assignment runs the setter inherited from [Object.prototype],
    which makes the tree the prototype of [result] and gives it no own
    property.  The prototype is not part of what is written and is not kept. *)
Definition protoKey : string := "__proto__".

Definition assign (key : string) (tree : ModuleNode) (result : gmap string ModuleNode)
    : gmap string ModuleNode :=
  if String.eqb key protoKey && negb (bool_decide (is_Some (result !! key)))
  then result
  else <[key := tree]> result.

(** The loop over the entries: [if (tree) result[path.relative(root, entry)] = tree]. *)
Fixpoint forEntries `{PathLib} (root : string) (moduleGraph : gmap string ModuleInfo)
    (fuel : nat) (ents : list string) (result : gmap string ModuleNode)
    : option (gmap string ModuleNode) :=
  match ents with
  | [] => Some result
  | entry :: rest =>
      tree ← collectEntry moduleGraph fuel entry;
      forEntries root moduleGraph fuel rest
        (match tree with
         | Some t => assign (relative root entry) t result
         | None => result
         end)
  end.

Inductive Outcome :=
| NotGenerated
| Generated (result : gmap string ModuleNode).

Definition generateBundle `{PathLib} (fuel : nat) (config : option ResolvedConfig)
    (ents : list string) (moduleGraph : gmap string ModuleInfo) : option Outcome :=
  match config with
  | None => Some NotGenerated
  | Some cfg =>
      let root := Js.or (default "" (cfg_root cfg)) cwd in
      Generated <$> forEntries root moduleGraph fuel ents ∅
  end.

(** The nodes of a tree, as pairs of id and order, in the order in which
    the calls of [collectDeps] return: the subtrees from left to right,
    then the root. *)
Fixpoint postorder (t : ModuleNode) : list (string * nat) :=
  match t with
  | mkNode id deps order =>
      (fix each (ds : list ModuleNode) : list (string * nat) :=
         match ds with
         | [] => []
         | d :: ds' => postorder d ++ each ds'
         end) deps ++ [(id, order)]
  end.

Fixpoint postorderAll (ts : list ModuleNode) : list (string * nat) :=
  match ts with
  | [] => []
  | t :: ts' => postorder t ++ postorderAll ts'
  end.

(** A recursion depth that no walk over [g] exceeds. *)
Definition enoughFuel (g : gmap string ModuleInfo) : nat := S (S (size (depIds g))).

(** [collected g st st' l]: between the states [st] and [st'] the walk has
    visited exactly the ids of [l], each once and none of them empty or
    with node_modules in it, all but possibly the first call's own id
    dependencies of the module graph, and has numbered them in sequence
    from the counter of [st] on. *)
Record collected (g : gmap string ModuleInfo) (st st' : Collector)
    (l : list (string * nat)) : Prop := {
  col_visited : visited st ⊆ visited st';
  col_orders : l.*2 = seq (counter st) (length l);
  col_counter : counter st' = counter st + length l;
  col_nodup : NoDup l.*1;
  col_ids : ∀ x, x ∈ l.*1 ↔ x ∈ visited st' ∧ x ∉ visited st;
  col_clean : ∀ x, x ∈ l.*1 → x ≠ "" ∧ Js.includes "node_modules" x = false
}.

(** What a call of [collectDeps] returns. *)
Definition returns (g : gmap string ModuleInfo) (id : string) (st : Collector)
    (r : option ModuleNode) (st' : Collector) : Prop :=
  match r with
  | None => st' = st ∧ rejected id st = true
  | Some t =>
      rejected id st = false ∧ m_id t = id ∧ counter st' = S (m_order t) ∧
      collected g st st' (postorder t)
  end.

End TreePlugin.

(** * Predicates of the properties *)

(** ** Invariants of the builder *)

(** The index [nodeIdToOrder] and the key set [edgeKeySet] mirror the two
    output arrays, the orders are [1..N] in array order, and neither array
    has a repeated key. *)
Record wf (b : Builder) : Prop := {
  wf_orders : n_order <$> nodes b = seq 1 (length (nodes b));
  wf_counter : orderCounter b = S (length (nodes b));
  wf_index : ∀ id k,
    nodeIdToOrder b !! id = Some k ↔ {| n_id := id; n_order := k |} ∈ nodes b;
  wf_ids : NoDup (n_id <$> nodes b);
  wf_keys : ∀ key, key ∈ edgeKeySet b ↔ ∃ e, e ∈ edges b ∧ keyOf e = key;
  wf_edges : NoDup (keyOf <$> edges b)
}.

(** A builder that only gained nodes, edges, index entries and entries. *)
Record grows (b b' : Builder) : Prop := {
  grows_nodes : nodes b `prefix_of` nodes b';
  grows_edges : edges b `prefix_of` edges b';
  grows_index : nodeIdToOrder b ⊆ nodeIdToOrder b';
  grows_entries : entryRelIds b `prefix_of` entryRelIds b'
}.

Section Predicates.

Context `{PathLib}.
Variable root : string.
Variable supportedExts : gset string.
Variable moduleGraph : gmap string ModuleInfo.

Local Abbreviation toRel := (toRel root).
Local Abbreviation hasSupportedExt := (hasSupportedExt supportedExts).
Local Abbreviation enter := (enter root supportedExts).

(** The state right after the head of [traverse id]: the query is logged
    and the node of [id] is registered if it qualifies. *)
Definition afterEnter (id : string) (w : Walk) : Walk :=
  onDag (enter id (toRel id)) (logQuery id w).

(** All dependencies of [x] that are not skipped have been visited. *)
Definition complete (x : string) (v : Walk) : Prop :=
  ∀ info dep,
    moduleGraph !! x = Some info →
    dep ∈ importedIds info ++ dynamicallyImportedIds info →
    shouldSkip dep = false → dep ∈ visited v.

(** Where nodes and edges come from. [Q] holds of the raw identifiers that
    the walk may call [traverse] on. Every node is the canonical form of
    such an identifier that passes the extension filter; every edge joins
    two nodes and was made from a source and a target that both pass the
    filter, the target not being skipped. *)
Record provenance (Q : string → Prop) (b : Builder) : Prop := {
  prov_nodes : ∀ n, n ∈ nodes b →
    ∃ raw, n_id n = toRel raw ∧ hasSupportedExt raw = true ∧ Q raw;
  prov_edges : ∀ e, e ∈ edges b →
    e_source e ∈ n_id <$> nodes b ∧ e_target e ∈ n_id <$> nodes b ∧
    ∃ id dep, e_source e = toRel id ∧ e_target e = toRel dep ∧
              hasSupportedExt id = true ∧ hasSupportedExt dep = true ∧
              Q id ∧ shouldSkip dep = false
}.

(** The invariant of the walk: the builder is well formed and of known
    provenance, and every identifier queried so far is admitted and, if
    it passes the filter, has its node. *)
Definition walk_ok (Q : string → Prop) (w : Walk) : Prop :=
  wf (dag w) ∧ provenance Q (dag w) ∧
  ∀ x, x ∈ oracleLog w →
       Q x ∧ (hasSupportedExt x = true → hasNode (toRel x) (dag w) = true).

End Predicates.

(** ** Three claims in the words of the specification *)

(** The policy in the words of the specification: empty, or with a path
    segment [node_modules], or starting with the sentinel character. *)
Definition mustSkip_as_specified (id : string) : Prop :=
  id = "" ∨ "node_modules" ∈ Js.split "/"%char id ∨ ∃ r, id = String NUL r.

(** The claim as stated: a dependency that the skip policy matches is still
    recursed into. *)
Definition skipped_dependency_is_traversed : Prop :=
  ∀ (lib : PathLib) root supportedExts moduleGraph fuel entry b w id info dep,
    walkEntry root supportedExts moduleGraph fuel entry b = Some w →
    id ∈ oracleLog w → moduleGraph !! id = Some info →
    dep ∈ importedIds info ++ dynamicallyImportedIds info →
    shouldSkip dep = true →
    dep ∈ oracleLog w.

(** The second half of the claim as stated: a dependency that passes the
    extension filter while its source does not is registered as a node. *)
Definition qualifying_dependency_is_registered : Prop :=
  ∀ (lib : PathLib) root supportedExts moduleGraph fuel entry b w id info dep,
    walkEntry root supportedExts moduleGraph fuel entry b = Some w →
    id ∈ oracleLog w → moduleGraph !! id = Some info →
    dep ∈ importedIds info ++ dynamicallyImportedIds info →
    hasSupportedExt supportedExts dep = true →
    hasSupportedExt supportedExts id = false →
    toRel root dep ∈ n_id <$> nodes (dag w).

(** ** Concrete runs *)

Module Runs.

Definition posix : PathLib := Posix.lib "/".

Definition root : string := "/proj".
Definition exts : gset string := supportedExtsOf NotAnArray.

Definition info (st dy : list string) : ModuleInfo :=
  {| importedIds := st; dynamicallyImportedIds := dy |}.

(** The example of the specification: main imports a statically and b
    dynamically, a imports main, b is unknown to the oracle. *)
Definition specGraph : gmap string ModuleInfo :=
  <["/proj/src/main.ts" := info ["/proj/src/a.ts"] ["/proj/src/b.ts"]]>
  (<["/proj/src/a.ts" := info ["/proj/src/main.ts"] []]> ∅).

(** A two-module cycle. *)
Definition cycleGraph : gmap string ModuleInfo :=
  <["/proj/src/a.ts" := info ["/proj/src/b.ts"] []]>
  (<["/proj/src/b.ts" := info ["/proj/src/a.ts"] []]> ∅).

(** A module behind a third-party package. *)
Definition vendorGraph : gmap string ModuleInfo :=
  <["/proj/src/main.ts" := info ["/proj/node_modules/lib/index.js"] []]>
  (<["/proj/node_modules/lib/index.js" := info ["/proj/src/hidden.ts"] []]> ∅).

(** A style sheet that imports a third-party script. *)
Definition styleGraph : gmap string ModuleInfo :=
  <["/proj/src/style.css" := info ["/proj/node_modules/lib/index.js"] []]> ∅.

(** File names that contain the separator of the edge key. *)
Definition barGraph : gmap string ModuleInfo :=
  <["/proj/x.ts" := info [] ["/proj/y.ts|c.ts"]]>
  (<["/proj/x.ts|y.ts" := info ["/proj/c.ts"] ["/proj/c.ts"]]> ∅).

End Runs.

(** The example of the specification. *)
Definition specOptions : Options :=
  {| entries := ["/proj/src/main.ts"]; extensions := NotAnArray |}.

Definition specConfig : option ResolvedConfig := Some {| cfg_root := Some "/proj" |}.

(** The result of the example, the edges in the order of their creation:
    the edge from a back to main is made while a is walked, before the
    dynamic imports of main are looked at. *)
Definition specResult : DagOutput :=
  {| out_nodes := [ {| n_id := "src/main.ts"; n_order := 1 |};
                    {| n_id := "src/a.ts"; n_order := 2 |};
                    {| n_id := "src/b.ts"; n_order := 3 |} ];
     out_edges := [ {| e_source := "src/main.ts"; e_target := "src/a.ts"; e_kind := static |};
                    {| e_source := "src/a.ts"; e_target := "src/main.ts"; e_kind := static |};
                    {| e_source := "src/main.ts"; e_target := "src/b.ts"; e_kind := dynamic |} ];
     out_entries := ["src/main.ts"] |}.

(** The result on the two-module cycle. *)
Definition cycleResult : DagOutput :=
  {| out_nodes := [ {| n_id := "src/a.ts"; n_order := 1 |};
                    {| n_id := "src/b.ts"; n_order := 2 |} ];
     out_edges := [ {| e_source := "src/a.ts"; e_target := "src/b.ts"; e_kind := static |};
                    {| e_source := "src/b.ts"; e_target := "src/a.ts"; e_kind := static |} ];
     out_entries := ["src/a.ts"] |}.

(** The result on the file names with the key separator. *)
Definition barResult : DagOutput :=
  {| out_nodes := [ {| n_id := "x.ts"; n_order := 1 |};
                    {| n_id := "y.ts|c.ts"; n_order := 2 |};
                    {| n_id := "x.ts|y.ts"; n_order := 3 |};
                    {| n_id := "c.ts"; n_order := 4 |} ];
     out_edges := [ {| e_source := "x.ts"; e_target := "y.ts|c.ts"; e_kind := dynamic |};
                    {| e_source := "x.ts|y.ts"; e_target := "c.ts"; e_kind := static |} ];
     out_entries := ["x.ts"; "x.ts|y.ts"] |}.

(** ** Predicates of the further properties *)

(** A string that is empty or starts with a character that is no space. *)
Definition headOk (s : string) : Prop :=
  match s with "" => True | String a _ => Js.isSpace a = false end.

(** The dependencies of one kind. *)
Definition depsOf (kind : EdgeKind) (info : ModuleInfo) : list string :=
  match kind with
  | static => importedIds info
  | dynamic => dynamicallyImportedIds info
  end.

(** [reach g a x]: [x] is [a] or is reached from [a] along dependencies of
    the module graph that the skip policy does not match. *)
Inductive reach (g : gmap string ModuleInfo) : string → string → Prop :=
| reach_refl x : reach g x x
| reach_step a info dep x :
    g !! a = Some info →
    dep ∈ importedIds info ++ dynamicallyImportedIds info →
    shouldSkip dep = false →
    reach g dep x →
    reach g a x.

(** The identifiers reached from a non-empty entry of the run. *)
Definition reached (moduleGraph : gmap string ModuleInfo) (ents : list string)
    (x : string) : Prop :=
  ∃ entry, entry ∈ ents ∧ entry ≠ "" ∧ reach moduleGraph entry x.

(** The entries that are registered: not empty and passing the filter. *)
Definition listedEntry `{PathLib} (supportedExts : gset string) (entry : string) : bool :=
  Js.truthy entry && hasSupportedExt supportedExts entry.

(** [sound R b]: every node of [b] is the canonical form of an identifier
    that [R] admits and that passes the extension filter; every edge was
    made from an identifier that [R] admits and one of its dependencies of
    the kind of the edge, not skipped, both passing the filter. *)
Definition sound `{PathLib} (root : string) (supportedExts : gset string)
    (moduleGraph : gmap string ModuleInfo) (R : string → Prop) (b : Builder) : Prop :=
  (∀ n, n ∈ nodes b →
     ∃ raw, R raw ∧ hasSupportedExt supportedExts raw = true ∧ n_id n = toRel root raw) ∧
  (∀ e, e ∈ edges b →
     ∃ id info dep,
       R id ∧ moduleGraph !! id = Some info ∧
       dep ∈ depsOf (e_kind e) info ∧
       shouldSkip dep = false ∧
       hasSupportedExt supportedExts id = true ∧
       hasSupportedExt supportedExts dep = true ∧
       e_source e = toRel root id ∧ e_target e = toRel root dep).

(** [edgesDone x b]: if [x] passes the extension filter, then for each of
    its dependencies that is not skipped and passes the filter the key of
    the edge is taken by an edge of [b]. *)
Definition edgesDone `{PathLib} (root : string) (supportedExts : gset string)
    (moduleGraph : gmap string ModuleInfo) (x : string) (b : Builder) : Prop :=
  hasSupportedExt supportedExts x = true →
  ∀ info kind dep,
    moduleGraph !! x = Some info →
    dep ∈ depsOf kind info →
    shouldSkip dep = false →
    hasSupportedExt supportedExts dep = true →
    ∃ e, e ∈ edges b ∧ keyOf e = edgeKey (toRel root x) (toRel root dep) kind.

(** * Properties *)

(** ** Strings *)

Module JsFacts.

Lemma startsWith_spec p s :
  Js.startsWith p s = true ↔ ∃ r, s = p +:+ r.
Proof.
  revert s. induction p as [|a p IH]; intros s; simpl.
  - split; [intros _; by exists s | done].
  - destruct s as [|b s].
    + split; [done | intros [r Hr]; discriminate].
    + destruct (Ascii.eqb_spec a b) as [->|Hab].
      * rewrite IH. split; intros [r Hr]; exists r; [by rewrite Hr | by injection Hr].
      * split; [done | intros [r Hr]; injection Hr; congruence].
Qed.

Lemma includes_unfold needle s :
  Js.includes needle s =
  Js.startsWith needle s ||
  match s with EmptyString => false | String _ s' => Js.includes needle s' end.
Proof. by destruct s. Qed.

Lemma includes_spec needle s :
  Js.includes needle s = true ↔ ∃ pre post, s = pre +:+ needle +:+ post.
Proof.
  split.
  - induction s as [|a s IH]; rewrite includes_unfold, orb_true_iff.
    + intros [Hp|?]; [|done].
      apply startsWith_spec in Hp as [r Hr]. by exists "", r.
    + intros [Hp|Hi].
      * apply startsWith_spec in Hp as [r Hr]. by exists "", r.
      * destruct (IH Hi) as (pre & post & ->). by exists (String a pre), post.
  - intros (pre & post & ->).
    induction pre as [|a pre IH]; rewrite includes_unfold, orb_true_iff.
    + left. apply startsWith_spec. by exists post.
    + right. exact IH.
Qed.

Lemma split_segments c s :
  (∀ hd tl, Js.split c s = hd :: tl → ∃ post, s = hd +:+ post) ∧
  (∀ seg, seg ∈ Js.split c s → ∃ pre post, s = pre +:+ seg +:+ post).
Proof.
  induction s as [|a s [IHhd IHin]]; simpl.
  - split.
    + intros hd tl [= <- <-]. by exists "".
    + intros seg ->%list_elem_of_singleton. by exists "", "".
  - destruct (Ascii.eqb a c).
    + split.
      * intros hd tl [= <- <-]. by eexists.
      * intros seg [-> | Hin]%elem_of_cons; [by exists "", (String a s)|].
        destruct (IHin _ Hin) as (pre & post & ->). by exists (String a pre), post.
    + destruct (Js.split c s) as [|h t] eqn:Hs.
      * split.
        -- intros hd tl [= <- <-]. by exists s.
        -- intros seg ->%list_elem_of_singleton. by exists "", s.
      * destruct (IHhd h t eq_refl) as [post0 Hpost0]. split.
        -- intros hd tl [= <- <-]. exists post0.
           change (String a s = String a (h +:+ post0)). by f_equal.
        -- intros seg [-> | Hin]%elem_of_cons.
           ++ exists "", post0.
              change (String a s = String a (h +:+ post0)). by f_equal.
           ++ destruct (IHin seg) as (pre & post & ->); [by right|].
              by exists (String a pre), post.
Qed.

Lemma truthy_false s : Js.truthy s = false ↔ s = "".
Proof. by destruct s. Qed.

End JsFacts.

(** ** The skip policy (C7) *)

(** C7, as stated, fails: an identifier that merely contains the text
    node_modules inside a file name is skipped although none of its path
    segments is a node_modules directory. *)
Lemma C7_counterexample :
  ¬ (∀ id, shouldSkip id = true ↔ mustSkip_as_specified id).
Proof.
  intros Hclaim.
  destruct (Hclaim "/proj/src/node_modules_list.ts") as [Hskip _].
  destruct (Hskip eq_refl) as [?|[Hseg|[r ?]]]; [done| |done].
  vm_compute in Hseg. repeat (apply elem_of_cons in Hseg as [Hseg|Hseg]; [done|]).
  by apply elem_of_nil in Hseg.
Qed.

(** C7 (amended): [shouldSkip] is true exactly for the empty identifier, an
    identifier that contains the text node_modules anywhere, and an
    identifier that starts with the NUL character; in particular every
    identifier with a node_modules path segment is skipped. *)
Theorem C7_shouldSkip_spec :
  (∀ id, shouldSkip id = true ↔
     id = "" ∨ (∃ pre post, id = pre +:+ "node_modules" +:+ post) ∨ (∃ r, id = String NUL r)) ∧
  (∀ id, "node_modules" ∈ Js.split "/"%char id → shouldSkip id = true).
Proof.
  assert (Hspec : ∀ id, shouldSkip id = true ↔
     id = "" ∨ (∃ pre post, id = pre +:+ "node_modules" +:+ post) ∨ (∃ r, id = String NUL r)).
  { intros id. unfold shouldSkip.
    destruct (Js.truthy id) eqn:Ht; cbn [negb].
    - destruct (Js.includes "node_modules" id) eqn:Hi.
      + apply JsFacts.includes_spec in Hi. naive_solver.
      + assert (¬ ∃ pre post, id = pre +:+ "node_modules" +:+ post) as Hn.
        { rewrite <- JsFacts.includes_spec. congruence. }
        destruct (Js.startsWith (String NUL "") id) eqn:Hs.
        * apply JsFacts.startsWith_spec in Hs as [r ->]. split; [|done].
          intros _. right; right. by exists r.
        * split; [discriminate|]. intros [->|[?|[r ->]]]; [done|done|].
          by vm_compute in Hs.
    - apply JsFacts.truthy_false in Ht as ->. naive_solver. }
  split; [exact Hspec|].
  intros id Hseg. apply Hspec. right; left.
  by apply (JsFacts.split_segments "/"%char id).
Qed.

Lemma C7_shouldSkip_spec_witness :
  "node_modules" ∈ Js.split "/"%char "/proj/node_modules/lib/index.js" ∧
  shouldSkip "/proj/node_modules/lib/index.js" = true.
Proof.
  assert (Hseg : "node_modules" ∈ Js.split "/"%char "/proj/node_modules/lib/index.js").
  { vm_compute. right. right. left. }
  split; [exact Hseg|].
  exact (proj2 C7_shouldSkip_spec "/proj/node_modules/lib/index.js" Hseg).
Defined.

(** ** The extension configuration (C10) *)

Lemma configuredExts_nonempty extensions : configuredExts extensions ≠ [].
Proof.
  destruct extensions as [|[|e exts]]; simpl; done.
Qed.

(** C10: an [extensions] option that is an empty array, or no array at all,
    is replaced by the five default suffixes; the configured suffix list and
    the supported set are never empty, and with an empty array the filter
    accepts exactly what it accepts by default. *)
Theorem C10_empty_extensions_default :
  configuredExts (ArrayOf []) = [".js"; ".jsx"; ".ts"; ".tsx"; ".vue"] ∧
  configuredExts NotAnArray = [".js"; ".jsx"; ".ts"; ".tsx"; ".vue"] ∧
  (∀ extensions, configuredExts extensions ≠ [] ∧ supportedExtsOf extensions ≠ ∅) ∧
  (∀ (lib : PathLib) id,
     hasSupportedExt (supportedExtsOf (ArrayOf [])) id =
     hasSupportedExt (supportedExtsOf NotAnArray) id) ∧
  @hasSupportedExt (Posix.lib "/") (supportedExtsOf (ArrayOf [])) "/proj/src/main.ts" = true.
Proof.
  split_and!; try done.
  intros extensions. split; [apply configuredExts_nonempty|].
  unfold supportedExtsOf.
  pose proof (configuredExts_nonempty extensions) as Hne.
  destruct (configuredExts extensions) as [|e l]; [done|].
  set_solver.
Qed.

(** ** The dependency universe of a module graph *)

Lemma depIds_static (g : gmap string ModuleInfo) id info dep :
  g !! id = Some info → dep ∈ importedIds info → dep ∈ depIds g.
Proof.
  intros Hg Hdep. apply elem_of_list_to_set, list_elem_of_bind.
  exists (id, info). split; [apply elem_of_app; by left|].
  by apply elem_of_map_to_list.
Qed.

Lemma depIds_dynamic (g : gmap string ModuleInfo) id info dep :
  g !! id = Some info → dep ∈ dynamicallyImportedIds info → dep ∈ depIds g.
Proof.
  intros Hg Hdep. apply elem_of_list_to_set, list_elem_of_bind.
  exists (id, info). split; [apply elem_of_app; by right|].
  by apply elem_of_map_to_list.
Qed.

(** ** Invariants of the builder *)

Lemma wf_empty : wf emptyBuilder.
Proof.
  split; simpl; try done; try apply NoDup_nil_2.
  - intros id k. rewrite lookup_empty, elem_of_nil. split; [done | tauto].
  - intros key. rewrite elem_of_empty. split; [tauto|].
    intros (e & He & _). by apply elem_of_nil in He.
Qed.

Lemma hasNode_true relId b : hasNode relId b = true ↔ is_Some (nodeIdToOrder b !! relId).
Proof. unfold hasNode. by rewrite bool_decide_eq_true. Qed.

Lemma hasNode_false relId b : hasNode relId b = false ↔ nodeIdToOrder b !! relId = None.
Proof.
  unfold hasNode. by rewrite bool_decide_eq_false, eq_None_not_Some.
Qed.

(** With a well-formed builder, the index holds exactly the ids of [nodes]. *)
Lemma hasNode_nodes relId b :
  wf b → hasNode relId b = true ↔ relId ∈ n_id <$> nodes b.
Proof.
  intros Hwf. rewrite hasNode_true, list_elem_of_fmap. split.
  - intros [k Hk]. apply (wf_index b Hwf) in Hk.
    by exists {| n_id := relId; n_order := k |}.
  - intros ([i k] & -> & Hn). exists k. by apply (wf_index b Hwf).
Qed.

Lemma wf_pushEntry relId b : wf b → wf (pushEntry relId b).
Proof. intros []. by split. Qed.

Lemma wf_addEdge fromRel toRel kind b : wf b → wf (addEdge fromRel toRel kind b).
Proof.
  intros Hwf. unfold addEdge.
  destruct (bool_decide_reflect (edgeKey fromRel toRel kind ∈ edgeKeySet b)) as [|Hfresh];
    [done|].
  destruct Hwf as [Ho Hc Hi Hn Hk He]. split; simpl; try done.
  - intros key. rewrite elem_of_union, elem_of_singleton, Hk. split.
    + intros [->|(e & He' & Hkey)].
      * exists {| e_source := fromRel; e_target := toRel; e_kind := kind |}.
        split; [|done]. apply elem_of_app. right. by apply list_elem_of_singleton.
      * exists e. split; [apply elem_of_app; by left|done].
    + intros (e & [He' | ->%list_elem_of_singleton]%elem_of_app & Hkey).
      * right. by exists e.
      * by left.
  - rewrite fmap_app. apply NoDup_app. split_and!; [done| |apply NoDup_singleton].
    intros key (e & Hkey & He')%list_elem_of_fmap Hnew%list_elem_of_singleton.
    apply Hfresh, Hk. exists e. split; [done|]. by rewrite <- Hkey.
Qed.

Section BuilderFacts.

Context `{PathLib}.
Variable root : string.
Variable supportedExts : gset string.
Variable moduleGraph : gmap string ModuleInfo.

Local Abbreviation toRel := (toRel root).
Local Abbreviation hasSupportedExt := (hasSupportedExt supportedExts).
Local Abbreviation ensureNode := (ensureNode root).
Local Abbreviation enter := (enter root supportedExts).
Local Abbreviation recordDep := (recordDep root supportedExts).
Local Abbreviation forDeps := (forDeps root supportedExts).
Local Abbreviation traverse := (traverse root supportedExts moduleGraph).
Local Abbreviation walkEntry := (walkEntry root supportedExts moduleGraph).
Local Abbreviation processEntry := (processEntry root supportedExts moduleGraph).
Local Abbreviation forEntries := (forEntries root supportedExts moduleGraph).
Local Abbreviation buildDag := (buildDag root supportedExts moduleGraph).
Local Abbreviation afterEnter := (afterEnter root supportedExts).
Local Abbreviation complete := (complete moduleGraph).

(** *** [ensureNode] *)

Lemma ensureNode_fst absId b : (ensureNode absId b).1 = toRel absId.
Proof. unfold ensureNode. by destruct (hasNode _ _). Qed.

Lemma ensureNode_present absId b :
  hasNode (toRel absId) b = true → (ensureNode absId b).2 = b.
Proof. unfold ensureNode. by intros ->. Qed.

Lemma ensureNode_fresh absId b :
  hasNode (toRel absId) b = false →
  (ensureNode absId b).2 =
    {| nodes := nodes b ++ [{| n_id := toRel absId; n_order := orderCounter b |}];
       edges := edges b;
       nodeIdToOrder := <[toRel absId := orderCounter b]> (nodeIdToOrder b);
       edgeKeySet := edgeKeySet b;
       entryRelIds := entryRelIds b;
       orderCounter := S (orderCounter b) |}.
Proof.
  unfold ensureNode. intros ->. simpl. by rewrite lookup_insert_eq.
Qed.

Lemma ensureNode_hasNode absId b : hasNode (toRel absId) (ensureNode absId b).2 = true.
Proof.
  destruct (hasNode (toRel absId) b) eqn:Hn.
  - by rewrite ensureNode_present.
  - rewrite ensureNode_fresh by done. apply hasNode_true. simpl.
    rewrite lookup_insert_eq. by eexists.
Qed.

Lemma wf_ensureNode absId b : wf b → wf (ensureNode absId b).2.
Proof.
  intros Hwf. destruct (hasNode (toRel absId) b) eqn:Hn.
  { by rewrite ensureNode_present. }
  rewrite ensureNode_fresh by done.
  apply hasNode_false in Hn.
  destruct Hwf as [Ho Hc Hi Hd Hk He]. split; simpl; try done.
  - rewrite fmap_app, length_app, Ho, Hc. simpl.
    by rewrite Nat.add_1_r, seq_S.
  - rewrite length_app. simpl. lia.
  - intros id k. rewrite elem_of_app, list_elem_of_singleton, <- Hi.
    destruct (decide (toRel absId = id)) as [<-|Hne].
    + rewrite lookup_insert_eq. split.
      * intros [= <-]. by right.
      * intros [Hold|[= <-]]; [by rewrite Hn in Hold | done].
    + rewrite lookup_insert_ne by done. split; [by left|].
      intros [|[=]]; [done|congruence].
  - rewrite fmap_app. apply NoDup_app. split_and!; [done| |apply NoDup_singleton].
    intros id ([i k] & Hid & Hin)%list_elem_of_fmap Hnew%list_elem_of_singleton.
    apply Hi in Hin. simpl in Hid, Hnew. congruence.
Qed.

Lemma wf_enter id fromRel b : wf b → wf (enter id fromRel b).
Proof.
  intros Hwf. unfold enter.
  destruct (_ && _); [by apply wf_ensureNode | done].
Qed.

Lemma wf_recordDep id fromRel kind dep b : wf b → wf (recordDep id fromRel kind dep b).
Proof.
  intros Hwf. unfold recordDep.
  destruct (_ && _).
  - apply wf_addEdge. destruct (negb _); [by apply wf_ensureNode | done].
  - destruct (_ && _); [by apply wf_ensureNode | done].
Qed.

(** *** Unfolding equations *)

Lemma traverse_S fuel id w :
  traverse (S fuel) id w =
    match getModuleInfo moduleGraph id with
    | None => Some (afterEnter id w)
    | Some info =>
        w2 ← forDeps (traverse fuel) id (toRel id) static (importedIds info)
               (afterEnter id w);
        forDeps (traverse fuel) id (toRel id) dynamic (dynamicallyImportedIds info) w2
    end.
Proof. reflexivity. Qed.

Lemma forDeps_cons rec id fromRel kind dep rest w :
  forDeps rec id fromRel kind (dep :: rest) w =
    if shouldSkip dep then forDeps rec id fromRel kind rest w
    else
      let w1 := onDag (recordDep id fromRel kind dep) w in
      if bool_decide (dep ∈ visited w1)
      then forDeps rec id fromRel kind rest w1
      else w2 ← rec dep (markVisited dep w1);
           forDeps rec id fromRel kind rest w2.
Proof. reflexivity. Qed.

(** *** The induction principle of the walk

    A property of the walk state holds after [traverse] as soon as it
    holds after the head of the call and is kept by the two kinds of step:
    recording a dependency that is not skipped, and calling [traverse] on
    a dependency that is neither skipped nor visited. *)
Section WalkInvariant.

Variable P : Walk → Prop.

Hypothesis P_call : ∀ dep w,
  dep ∈ depIds moduleGraph → shouldSkip dep = false → dep ∉ visited w → P w →
  P (afterEnter dep (markVisited dep w)).

Hypothesis P_record : ∀ id kind dep w,
  id ∈ oracleLog w → shouldSkip dep = false → P w →
  P (onDag (recordDep id (toRel id) kind dep) w).

Lemma forDeps_invariant rec id kind deps :
  (∀ dep w w', P (afterEnter dep w) → rec dep w = Some w' →
               P w' ∧ oracleLog w ⊆ oracleLog w') →
  (∀ dep, dep ∈ deps → dep ∈ depIds moduleGraph) →
  ∀ w w', P w → id ∈ oracleLog w →
    forDeps rec id (toRel id) kind deps w = Some w' →
    P w' ∧ oracleLog w ⊆ oracleLog w'.
Proof.
  intros Hrec. induction deps as [|dep rest IH]; intros Hdeps w w' HP Hid Hrun.
  { injection Hrun as <-. done. }
  rewrite forDeps_cons in Hrun.
  assert (Hdep : dep ∈ depIds moduleGraph) by (apply Hdeps; left).
  assert (Hrest : ∀ d, d ∈ rest → d ∈ depIds moduleGraph)
    by (intros d Hd; apply Hdeps; by right).
  specialize (IH Hrest).
  destruct (shouldSkip dep) eqn:Hskip; [by apply IH|].
  cbv zeta in Hrun.
  pose proof (P_record id kind dep w Hid Hskip HP) as HP1.
  set (w1 := onDag (recordDep id (toRel id) kind dep) w) in *.
  destruct (bool_decide_reflect (dep ∈ visited w1)) as [Hv|Hv].
  { by apply (IH w1). }
  destruct (rec dep (markVisited dep w1)) as [w2|] eqn:Hcall; [|done].
  simpl in Hrun.
  destruct (Hrec dep _ w2 (P_call dep w1 Hdep Hskip Hv HP1) Hcall) as [HP2 Hlog].
  destruct (IH w2 w' HP2 (Hlog _ Hid) Hrun) as [HP' Hlog'].
  split; [done|]. intros x Hx. apply Hlog', Hlog, Hx.
Qed.

Lemma traverse_invariant fuel id w w' :
  P (afterEnter id w) → traverse fuel id w = Some w' →
  P w' ∧ oracleLog w ⊆ oracleLog w'.
Proof.
  revert id w w'. induction fuel as [|fuel IH]; intros id w w' HP Hrun; [done|].
  rewrite traverse_S in Hrun.
  assert (Hin : id ∈ oracleLog (afterEnter id w)).
  { simpl. apply elem_of_app. right. by apply list_elem_of_singleton. }
  assert (Hsub : oracleLog w ⊆ oracleLog (afterEnter id w)).
  { intros x Hx. simpl. apply elem_of_app. by left. }
  destruct (getModuleInfo moduleGraph id) as [info|] eqn:Hinfo.
  - destruct (forDeps (traverse fuel) id (toRel id) static (importedIds info)
                (afterEnter id w)) as [w2|] eqn:Hstatic; [|done].
    simpl in Hrun.
    destruct (forDeps_invariant _ _ _ _ IH
                (λ d, depIds_static _ _ _ d Hinfo) _ _ HP Hin Hstatic) as [HP2 Hlog2].
    destruct (forDeps_invariant _ _ _ _ IH
                (λ d, depIds_dynamic _ _ _ d Hinfo) _ _ HP2 (Hlog2 _ Hin) Hrun)
      as [HP' Hlog'].
    split; [done|]. intros x Hx. apply Hlog', Hlog2, Hsub, Hx.
  - injection Hrun as <-. done.
Qed.

End WalkInvariant.

(** *** The builder only grows *)

Lemma grows_refl b : grows b b.
Proof. by split. Qed.

Lemma grows_trans b1 b2 b3 : grows b1 b2 → grows b2 b3 → grows b1 b3.
Proof. intros [] []. split; by etrans. Qed.

Lemma grows_hasNode b b' relId :
  grows b b' → hasNode relId b = true → hasNode relId b' = true.
Proof.
  intros Hg. rewrite !hasNode_true. intros [k Hk]. exists k.
  by eapply lookup_weaken, grows_index.
Qed.

Lemma grows_ensureNode absId b : grows b (ensureNode absId b).2.
Proof.
  destruct (hasNode (toRel absId) b) eqn:Hn.
  { rewrite ensureNode_present by done. apply grows_refl. }
  rewrite ensureNode_fresh by done. split; simpl; try done.
  - by apply prefix_app_r.
  - apply insert_subseteq. by apply hasNode_false.
Qed.

Lemma grows_addEdge fromRel toRel' kind b : grows b (addEdge fromRel toRel' kind b).
Proof.
  unfold addEdge. destruct (bool_decide _); [apply grows_refl|].
  split; simpl; try done. by apply prefix_app_r.
Qed.

Lemma grows_pushEntry relId b : grows b (pushEntry relId b).
Proof. split; simpl; try done. by apply prefix_app_r. Qed.

Lemma grows_enter id fromRel b : grows b (enter id fromRel b).
Proof.
  unfold enter. destruct (_ && _); [apply grows_ensureNode | apply grows_refl].
Qed.

Lemma grows_recordDep id fromRel kind dep b : grows b (recordDep id fromRel kind dep b).
Proof.
  unfold recordDep. destruct (_ && _).
  - eapply grows_trans; [|apply grows_addEdge].
    destruct (negb _); [apply grows_ensureNode | apply grows_refl].
  - destruct (_ && _); [apply grows_ensureNode | apply grows_refl].
Qed.

(** [traverse] keeps the builder well formed, extends it, and extends the
    visited set. *)
Lemma traverse_grows fuel id w w' :
  traverse fuel id w = Some w' →
  grows (dag w) (dag w') ∧ visited w ⊆ visited w' ∧ oracleLog w ⊆ oracleLog w'.
Proof.
  intros Hrun.
  destruct (traverse_invariant
              (λ v, grows (dag w) (dag v) ∧ visited w ⊆ visited v)) with (4 := Hrun)
    as [[Hg Hv] Hl]; [| | |done].
  - intros dep v _ _ _ [Hg Hv]. split; simpl.
    + eapply grows_trans; [exact Hg | apply grows_enter].
    + set_solver.
  - intros id' kind dep v _ _ [Hg Hv]. split; simpl; [|done].
    eapply grows_trans; [exact Hg | apply grows_recordDep].
  - split; simpl; [apply grows_enter | done].
Qed.

Lemma traverse_wf fuel id w w' :
  wf (dag w) → traverse fuel id w = Some w' → wf (dag w').
Proof.
  intros Hwf Hrun.
  destruct (traverse_invariant (λ v, wf (dag v))) with (4 := Hrun) as [Hwf' _]; [| | |done].
  - intros dep v _ _ _ Hv. by apply wf_enter.
  - intros id' kind dep v _ _ Hv. by apply wf_recordDep.
  - by apply wf_enter.
Qed.

(** *** Entries *)

Lemma registerEntry_eq entry b :
  registerEntry root supportedExts entry b =
    if hasSupportedExt entry
    then pushEntry (toRel entry) (ensureNode entry b).2
    else b.
Proof.
  unfold registerEntry. destruct (hasSupportedExt entry); [|done].
  pose proof (ensureNode_fst entry b) as Hfst.
  destruct (ensureNode entry b) as [rel b']. simpl in *. by subst rel.
Qed.

Lemma wf_registerEntry entry b : wf b → wf (registerEntry root supportedExts entry b).
Proof.
  intros Hwf. rewrite registerEntry_eq. destruct (hasSupportedExt entry); [|done].
  by apply wf_pushEntry, wf_ensureNode.
Qed.

Lemma grows_registerEntry entry b : grows b (registerEntry root supportedExts entry b).
Proof.
  rewrite registerEntry_eq. destruct (hasSupportedExt entry); [|apply grows_refl].
  eapply grows_trans; [apply grows_ensureNode | apply grows_pushEntry].
Qed.

Lemma walkEntry_wf fuel entry b w :
  wf b → walkEntry fuel entry b = Some w → wf (dag w).
Proof.
  intros Hwf Hrun. eapply traverse_wf; [|exact Hrun]. simpl.
  by apply wf_registerEntry.
Qed.

Lemma walkEntry_grows fuel entry b w :
  walkEntry fuel entry b = Some w → grows b (dag w).
Proof.
  intros Hrun. apply traverse_grows in Hrun as (Hg & _ & _).
  eapply grows_trans; [apply grows_registerEntry | exact Hg].
Qed.

Lemma processEntry_wf fuel entry b b' :
  wf b → processEntry fuel entry b = Some b' → wf b' ∧ grows b b'.
Proof.
  intros Hwf. unfold processEntry. destruct (negb _).
  { intros [= <-]. split; [done | apply grows_refl]. }
  destruct (walkEntry fuel entry b) as [w|] eqn:Hrun; [|done].
  intros [= <-]. split; [by eapply walkEntry_wf | by eapply walkEntry_grows].
Qed.

Lemma forEntries_wf fuel ents b b' :
  wf b → forEntries fuel ents b = Some b' → wf b' ∧ grows b b'.
Proof.
  revert b. induction ents as [|entry rest IH]; intros b Hwf; simpl.
  { intros [= <-]. split; [done | apply grows_refl]. }
  destruct (processEntry fuel entry b) as [b1|] eqn:Hone; [|done]. simpl.
  intros Hrest. destruct (processEntry_wf _ _ _ _ Hwf Hone) as [Hwf1 Hg1].
  destruct (IH _ Hwf1 Hrest) as [Hwf' Hg']. split; [done | by eapply grows_trans].
Qed.

Lemma forEntries_app fuel ents1 ents2 b :
  forEntries fuel (ents1 ++ ents2) b =
    forEntries fuel ents1 b ≫= forEntries fuel ents2.
Proof.
  revert b. induction ents1 as [|entry rest IH]; intros b; simpl; [done|].
  destruct (processEntry fuel entry b); simpl; [apply IH | done].
Qed.

(** *** Fuel *)

Lemma forDeps_fuel_mono (rec rec' : string → Walk → option Walk) id fromRel kind deps :
  (∀ dep w w', rec dep w = Some w' → rec' dep w = Some w') →
  ∀ w w', forDeps rec id fromRel kind deps w = Some w' →
          forDeps rec' id fromRel kind deps w = Some w'.
Proof.
  intros Hrec. induction deps as [|dep rest IH]; intros w w'; [done|].
  rewrite !forDeps_cons. destruct (shouldSkip dep); [apply IH|].
  cbv zeta. destruct (bool_decide _); [apply IH|].
  destruct (rec dep _) as [w2|] eqn:Hcall; [|done].
  rewrite (Hrec _ _ _ Hcall). simpl. apply IH.
Qed.

(** More fuel never changes the result of a walk that completed. *)
Lemma traverse_fuel_mono fuel fuel' id w w' :
  fuel ≤ fuel' → traverse fuel id w = Some w' → traverse fuel' id w = Some w'.
Proof.
  revert fuel' id w w'. induction fuel as [|fuel IH]; intros fuel' id w w' Hle; [done|].
  destruct fuel' as [|fuel']; [lia|].
  rewrite !traverse_S. destruct (getModuleInfo moduleGraph id) as [info|]; [|done].
  assert (Hrec : ∀ dep v v', traverse fuel dep v = Some v' → traverse fuel' dep v = Some v')
    by (intros dep v v'; apply IH; lia).
  destruct (forDeps (traverse fuel) _ _ static _ _) as [w2|] eqn:Hstatic; [|done].
  rewrite (forDeps_fuel_mono _ _ _ _ _ _ Hrec _ _ Hstatic). simpl.
  by apply forDeps_fuel_mono.
Qed.

Lemma forEntries_fuel_mono fuel fuel' ents b b' :
  fuel ≤ fuel' → forEntries fuel ents b = Some b' → forEntries fuel' ents b = Some b'.
Proof.
  intros Hle. revert b. induction ents as [|entry rest IH]; intros b; simpl; [done|].
  unfold processEntry. destruct (negb _); simpl; [apply IH|].
  unfold walkEntry.
  destruct (traverse fuel entry _) as [w|] eqn:Hrun; [|done].
  rewrite (traverse_fuel_mono _ _ _ _ _ Hle Hrun). simpl. apply IH.
Qed.

(** *** Termination *)

Local Abbreviation unvisited w := (size (depIds moduleGraph ∖ visited w)).

Lemma unvisited_mono (w w' : Walk) : visited w ⊆ visited w' → unvisited w' ≤ unvisited w.
Proof. intros Hsub. apply subseteq_size. set_solver. Qed.

Lemma unvisited_markVisited dep (w : Walk) :
  dep ∈ depIds moduleGraph → dep ∉ visited w →
  unvisited (markVisited dep w) < unvisited w.
Proof.
  intros Hdep Hv. apply subset_size. simpl. split; [set_solver|].
  intros Hsub. assert (dep ∈ depIds moduleGraph ∖ visited w) as Hin by set_solver.
  apply Hsub in Hin. set_solver.
Qed.

Lemma forDeps_terminates fuel id kind deps :
  (∀ dep w, unvisited w < fuel → is_Some (traverse fuel dep w)) →
  (∀ dep, dep ∈ deps → dep ∈ depIds moduleGraph) →
  ∀ w, unvisited w ≤ fuel →
    ∃ w', forDeps (traverse fuel) id (toRel id) kind deps w = Some w' ∧
          visited w ⊆ visited w'.
Proof.
  intros Hrec. induction deps as [|dep rest IH]; intros Hdeps w Hw.
  { by exists w. }
  assert (Hdep : dep ∈ depIds moduleGraph) by (apply Hdeps; left).
  assert (Hrest : ∀ d, d ∈ rest → d ∈ depIds moduleGraph)
    by (intros d Hd; apply Hdeps; by right).
  specialize (IH Hrest).
  rewrite forDeps_cons. destruct (shouldSkip dep); [by apply IH|].
  cbv zeta. set (w1 := onDag (recordDep id (toRel id) kind dep) w).
  destruct (bool_decide_reflect (dep ∈ visited w1)) as [Hv|Hv].
  { by apply (IH w1). }
  pose proof (unvisited_markVisited dep w1 Hdep Hv) as Hlt.
  destruct (Hrec dep (markVisited dep w1)) as [w2 Hcall].
  { change (unvisited w1) with (unvisited w) in Hlt. lia. }
  rewrite Hcall. simpl.
  destruct (traverse_grows _ _ _ _ Hcall) as (_ & Hv2 & _).
  destruct (IH w2) as (w' & Hrun & Hv').
  { pose proof (unvisited_mono _ _ Hv2).
    change (unvisited w1) with (unvisited w) in Hlt. lia. }
  exists w'. split; [done|]. simpl in Hv2. set_solver.
Qed.

(** A walk completes as soon as the fuel exceeds the number of dependency
    identifiers of the module graph that are not visited yet. *)
Lemma traverse_terminates fuel id w :
  unvisited w < fuel → is_Some (traverse fuel id w).
Proof.
  revert id w. induction fuel as [|fuel IH]; intros id w Hw; [lia|].
  rewrite traverse_S. destruct (getModuleInfo moduleGraph id) as [info|] eqn:Hinfo; [|done].
  assert (Hle : unvisited (afterEnter id w) ≤ fuel) by (simpl; lia).
  destruct (forDeps_terminates fuel id static (importedIds info) IH
              (λ d, depIds_static _ _ _ d Hinfo) _ Hle) as (w2 & -> & Hv2).
  simpl.
  destruct (forDeps_terminates fuel id dynamic (dynamicallyImportedIds info) IH
              (λ d, depIds_dynamic _ _ _ d Hinfo) w2) as (w' & -> & _); [|done].
  pose proof (unvisited_mono _ _ Hv2). lia.
Qed.

Lemma walkEntry_terminates entry b :
  is_Some (walkEntry (enoughFuel moduleGraph) entry b).
Proof.
  apply traverse_terminates. unfold enoughFuel.
  apply Nat.lt_succ_r, subseteq_size. set_solver.
Qed.

Lemma forEntries_terminates ents b :
  is_Some (forEntries (enoughFuel moduleGraph) ents b).
Proof.
  revert b. induction ents as [|entry rest IH]; intros b; simpl; [done|].
  unfold processEntry. destruct (negb _); simpl; [apply IH|].
  destruct (walkEntry_terminates entry b) as [w ->]. simpl. apply IH.
Qed.

(** *** The oracle log of one entry *)

Lemma walkEntry_log fuel entry b w :
  walkEntry fuel entry b = Some w →
  NoDup (oracleLog w) ∧
  (∀ x, x ∈ oracleLog w → x ∈ visited w) ∧
  (∀ x, x ∈ oracleLog w → x = entry ∨ x ∈ depIds moduleGraph ∧ shouldSkip x = false).
Proof.
  intros Hrun.
  destruct (traverse_invariant
    (λ v, NoDup (oracleLog v) ∧
          (∀ x, x ∈ oracleLog v → x ∈ visited v) ∧
          (∀ x, x ∈ oracleLog v →
                x = entry ∨ x ∈ depIds moduleGraph ∧ shouldSkip x = false)))
    with (4 := Hrun) as [HP _]; [| | |done].
  - intros dep v Hdep Hskip Hv (Hnd & Hsub & Hfrom). simpl. split_and!.
    + apply NoDup_app. split_and!; [done| |apply NoDup_singleton].
      intros x Hx ->%list_elem_of_singleton. by apply Hv, Hsub.
    + intros x [Hx| ->%list_elem_of_singleton]%elem_of_app; [|set_solver].
      apply Hsub in Hx. set_solver.
    + intros x [Hx| ->%list_elem_of_singleton]%elem_of_app; [by apply Hfrom|].
      by right.
  - intros id kind dep v _ _ HP. exact HP.
  - simpl. split_and!.
    + apply NoDup_singleton.
    + intros x ->%list_elem_of_singleton. set_solver.
    + intros x ->%list_elem_of_singleton. by left.
Qed.

Lemma walkEntry_queries_bounded fuel entry b w :
  walkEntry fuel entry b = Some w →
  length (oracleLog w) ≤ S (size (depIds moduleGraph)).
Proof.
  intros (Hnd & _ & Hfrom)%walkEntry_log.
  rewrite <- (size_list_to_set (C:=gset string)) by done.
  transitivity (size ({[entry]} ∪ depIds moduleGraph)).
  - apply subseteq_size. intros x Hx%elem_of_list_to_set.
    destruct (Hfrom x Hx) as [->|[? _]]; set_solver.
  - rewrite size_union_alt, size_singleton.
    assert (depIds moduleGraph ∖ {[entry]} ⊆ depIds moduleGraph) as Hsub by set_solver.
    apply subseteq_size in Hsub. lia.
Qed.

(** *** Where nodes and edges come from *)

Section Provenance.

Variable Q : string → Prop.
Hypothesis Q_unskipped : ∀ dep, shouldSkip dep = false → Q dep.

Local Abbreviation provenance := (provenance root supportedExts Q).
Local Abbreviation walk_ok := (walk_ok root supportedExts Q).

Lemma prov_empty : provenance emptyBuilder.
Proof. split; simpl; intros x Hx; by apply elem_of_nil in Hx. Qed.

Lemma prov_pushEntry relId b : provenance b → provenance (pushEntry relId b).
Proof. intros []. by split. Qed.

Lemma prov_ensureNode raw b :
  hasSupportedExt raw = true → Q raw → provenance b → provenance (ensureNode raw b).2.
Proof.
  intros Hext HQ [Hn He]. destruct (hasNode (toRel raw) b) eqn:Hhas.
  { by rewrite ensureNode_present. }
  rewrite ensureNode_fresh by done. split; simpl.
  - intros n [Hin| ->%list_elem_of_singleton]%elem_of_app; [by apply Hn|].
    by exists raw.
  - intros e Hin. destruct (He e Hin) as (Hs & Ht & Hfrom).
    rewrite fmap_app, !elem_of_app. by split_and!; [left | left |].
Qed.

Lemma prov_addEdge id dep kind b :
  wf b → provenance b →
  hasSupportedExt id = true → hasSupportedExt dep = true →
  Q id → shouldSkip dep = false →
  hasNode (toRel id) b = true → hasNode (toRel dep) b = true →
  provenance (addEdge (toRel id) (toRel dep) kind b).
Proof.
  intros Hwf [Hn He] Hid Hdep HQ Hskip Hsrc Htgt. unfold addEdge.
  destruct (bool_decide _); [by split|]. split; simpl; [done|].
  intros e [Hin| ->%list_elem_of_singleton]%elem_of_app; [by apply He|].
  simpl. split_and!; [by apply hasNode_nodes | by apply hasNode_nodes |].
  by exists id, dep.
Qed.

Lemma prov_enter id b : Q id → provenance b → provenance (enter id (toRel id) b).
Proof.
  intros HQ Hp. unfold enter.
  destruct (hasSupportedExt id) eqn:Hext; simpl; [|done].
  destruct (negb _); [by apply prov_ensureNode | done].
Qed.

Lemma prov_recordDep id kind dep b :
  wf b → provenance b → Q id →
  (hasSupportedExt id = true → hasNode (toRel id) b = true) →
  shouldSkip dep = false →
  provenance (recordDep id (toRel id) kind dep b).
Proof.
  intros Hwf Hp HQ Hsrc Hskip. unfold recordDep.
  destruct (hasSupportedExt id) eqn:Hid, (hasSupportedExt dep) eqn:Hdep; simpl;
    try done.
  - destruct (hasNode (toRel dep) b) eqn:Hhas; simpl.
    + by apply prov_addEdge; auto.
    + apply prov_addEdge; auto using wf_ensureNode, prov_ensureNode, ensureNode_hasNode.
      eapply grows_hasNode; [apply grows_ensureNode | auto].
  - destruct (negb _); [by apply prov_ensureNode; auto | done].
Qed.

Lemma walk_ok_afterEnter id w v :
  Q id → walk_ok w →
  dag v = dag w → oracleLog v = oracleLog w →
  walk_ok (afterEnter id v).
Proof.
  intros HQ (Hwf & Hp & Hlog) Hdag Hl. unfold walk_ok. simpl. rewrite Hdag, Hl.
  split_and!; [by apply wf_enter | by apply prov_enter |].
  intros x [Hx| ->%list_elem_of_singleton]%elem_of_app.
  - destruct (Hlog x Hx) as [HQx Hnode]. split; [done|]. intros Hext.
    eapply grows_hasNode; [apply grows_enter | auto].
  - split; [done|]. intros Hext. unfold enter. rewrite Hext. simpl.
    destruct (hasNode (toRel id) (dag w)) eqn:Hhas; simpl; [done|].
    apply ensureNode_hasNode.
Qed.

Lemma traverse_walk_ok fuel id w w' :
  Q id → walk_ok w → traverse fuel id w = Some w' → walk_ok w'.
Proof.
  intros HQ Hok Hrun.
  destruct (traverse_invariant walk_ok) with (4 := Hrun) as [Hok' _]; [| | |done].
  - intros dep v _ Hskip _ Hv. by apply (walk_ok_afterEnter dep v); auto.
  - intros id' kind dep v Hin Hskip (Hwf & Hp & Hlog). unfold walk_ok. simpl.
    destruct (Hlog id' Hin) as [HQ' Hnode].
    split_and!; [by apply wf_recordDep | by apply prov_recordDep |].
    intros x Hx. destruct (Hlog x Hx) as [HQx Hnodex]. split; [done|].
    intros Hext. eapply grows_hasNode; [apply grows_recordDep | auto].
  - by apply (walk_ok_afterEnter id w).
Qed.

Lemma walkEntry_walk_ok fuel entry b w :
  Q entry → wf b → provenance b → walkEntry fuel entry b = Some w → walk_ok w.
Proof.
  intros HQ Hwf Hp Hrun. eapply traverse_walk_ok; [exact HQ| |exact Hrun].
  unfold walk_ok. simpl. split_and!.
  - by apply wf_registerEntry.
  - rewrite registerEntry_eq. destruct (hasSupportedExt entry) eqn:Hext; [|done].
    by apply prov_pushEntry, prov_ensureNode.
  - intros x Hx. by apply elem_of_nil in Hx.
Qed.

Lemma forEntries_provenance fuel ents b b' :
  (∀ entry, entry ∈ ents → Q entry) → wf b → provenance b →
  forEntries fuel ents b = Some b' → provenance b'.
Proof.
  revert b. induction ents as [|entry rest IH]; intros b Hents Hwf Hp; simpl.
  { by intros [= <-]. }
  destruct (processEntry fuel entry b) as [b1|] eqn:Hone; [|done]. simpl.
  assert (wf b1 ∧ provenance b1) as [Hwf1 Hp1].
  { split; [by eapply processEntry_wf|].
    unfold processEntry in Hone. destruct (negb _); [by injection Hone as <-|].
    destruct (walkEntry fuel entry b) as [w|] eqn:Hrun; [|done].
    injection Hone as <-.
    eapply walkEntry_walk_ok in Hrun as (_ & Hp1 & _); [done| |done|done].
    apply Hents. left. }
  apply IH; [|done|done]. intros e He. apply Hents. by right.
Qed.

End Provenance.

(** *** Every dependency that is not skipped is reached *)

Lemma complete_mono x (v v' : Walk) : visited v ⊆ visited v' → complete x v → complete x v'.
Proof. intros Hsub Hc info dep Hinfo Hdep Hskip. eapply Hsub, Hc; eauto. Qed.

Lemma forDeps_complete (rec : string → Walk → option Walk) id fromRel kind deps :
  (∀ dep w w', rec dep w = Some w' →
     visited w ⊆ visited w' ∧
     ∀ x, x ∈ oracleLog w' → x ∈ oracleLog w ∨ complete x w') →
  ∀ w w', forDeps rec id fromRel kind deps w = Some w' →
    visited w ⊆ visited w' ∧
    (∀ dep, dep ∈ deps → shouldSkip dep = false → dep ∈ visited w') ∧
    (∀ x, x ∈ oracleLog w' → x ∈ oracleLog w ∨ complete x w').
Proof.
  intros Hrec. induction deps as [|dep rest IH]; intros w w' Hrun.
  { injection Hrun as <-. split_and!; [done| |by left].
    intros dep Hdep. by apply elem_of_nil in Hdep. }
  rewrite forDeps_cons in Hrun.
  destruct (shouldSkip dep) eqn:Hskip.
  { destruct (IH _ _ Hrun) as (Hv & Hdeps & Hlog). split_and!; [done| |done].
    intros d [->|Hd]%elem_of_cons; [congruence | by apply Hdeps]. }
  cbv zeta in Hrun. set (w1 := onDag (recordDep id fromRel kind dep) w) in *.
  destruct (bool_decide_reflect (dep ∈ visited w1)) as [Hin|Hin].
  { destruct (IH _ _ Hrun) as (Hv & Hdeps & Hlog). split_and!; [done| |done].
    intros d [->|Hd]%elem_of_cons; [intros _; by apply Hv | by apply Hdeps]. }
  destruct (rec dep (markVisited dep w1)) as [w2|] eqn:Hcall; [|done].
  simpl in Hrun.
  destruct (Hrec _ _ _ Hcall) as (Hv2 & Hlog2).
  destruct (IH _ _ Hrun) as (Hv & Hdeps & Hlog).
  simpl in Hv2. split_and!.
  - set_solver.
  - intros d [->|Hd]%elem_of_cons; [intros _; set_solver | by apply Hdeps].
  - intros x Hx. destruct (Hlog x Hx) as [Hx2|Hc]; [|by right].
    destruct (Hlog2 x Hx2) as [Hx1|Hc]; [by left|].
    right. by eapply complete_mono.
Qed.

Lemma traverse_complete fuel id w w' :
  traverse fuel id w = Some w' →
  visited w ⊆ visited w' ∧
  ∀ x, x ∈ oracleLog w' → x ∈ oracleLog w ∨ complete x w'.
Proof.
  revert id w w'. induction fuel as [|fuel IH]; intros id w w' Hrun; [done|].
  rewrite traverse_S in Hrun.
  destruct (getModuleInfo moduleGraph id) as [info|] eqn:Hinfo.
  - destruct (forDeps (traverse fuel) id (toRel id) static (importedIds info)
                (afterEnter id w)) as [w2|] eqn:Hstatic; [|done].
    simpl in Hrun.
    destruct (forDeps_complete _ _ _ _ _ IH _ _ Hstatic) as (Hv2 & Hdeps2 & Hlog2).
    destruct (forDeps_complete _ _ _ _ _ IH _ _ Hrun) as (Hv & Hdeps & Hlog).
    simpl in Hv2. split; [set_solver|].
    intros x Hx. destruct (Hlog x Hx) as [Hx2|Hc]; [|by right].
    destruct (Hlog2 x Hx2) as [Hx1|Hc]; [|right; by eapply complete_mono].
    simpl in Hx1. apply elem_of_app in Hx1 as [Hx1| ->%list_elem_of_singleton]; [by left|].
    right. intros info' dep Hinfo' Hdep Hskip.
    unfold getModuleInfo in Hinfo. rewrite Hinfo in Hinfo'. injection Hinfo' as <-.
    apply elem_of_app in Hdep as [Hdep|Hdep]; [apply Hv|]; auto.
  - injection Hrun as <-. simpl. split; [done|].
    intros x [Hx| ->%list_elem_of_singleton]%elem_of_app; [by left|].
    right. intros info dep Hinfo'. unfold getModuleInfo in Hinfo. congruence.
Qed.

(** Every queried identifier that passes the filter has its node, and at
    the end of a walk the visited identifiers are the queried ones. *)
Lemma walkEntry_registered fuel entry b w :
  walkEntry fuel entry b = Some w →
  (∀ x, x ∈ oracleLog w → hasSupportedExt x = true → hasNode (toRel x) (dag w) = true) ∧
  (∀ x, x ∈ visited w → x ∈ oracleLog w).
Proof.
  intros Hrun.
  assert (Henter : ∀ x (v : Walk),
    hasSupportedExt x = true → hasNode (toRel x) (dag (afterEnter x v)) = true).
  { intros x v Hext. simpl. unfold enter. rewrite Hext. simpl.
    destruct (hasNode (toRel x) (dag v)) eqn:Hhas; simpl; [done|].
    apply ensureNode_hasNode. }
  destruct (traverse_invariant
    (λ v, (∀ x, x ∈ oracleLog v → hasSupportedExt x = true →
                hasNode (toRel x) (dag v) = true) ∧
          (∀ x, x ∈ visited v → x ∈ oracleLog v)))
    with (4 := Hrun) as [HP _]; [| | |done].
  - intros dep v _ _ _ [Hreg Hvis]. split.
    + intros x Hx Hext. simpl in Hx.
      apply elem_of_app in Hx as [Hx| ->%list_elem_of_singleton]; [|by apply Henter].
      eapply grows_hasNode; [apply grows_enter | by apply Hreg].
    + intros x Hx. simpl in *. set_solver.
  - intros id kind dep v _ _ [Hreg Hvis]. split; [|done].
    intros x Hx Hext. eapply grows_hasNode; [apply grows_recordDep | by apply Hreg].
  - split.
    + intros x Hx Hext. simpl in Hx.
      apply list_elem_of_singleton in Hx as ->. by apply Henter.
    + intros x Hx. simpl in *. set_solver.
Qed.

(** After the walk of an entry, every dependency of a queried identifier
    that is not skipped and passes the filter has its node. *)
Lemma walkEntry_deps_registered fuel entry b w id info dep :
  walkEntry fuel entry b = Some w →
  id ∈ oracleLog w → moduleGraph !! id = Some info →
  dep ∈ importedIds info ++ dynamicallyImportedIds info →
  shouldSkip dep = false → hasSupportedExt dep = true →
  hasNode (toRel dep) (dag w) = true.
Proof.
  intros Hrun Hid Hinfo Hdep Hskip Hext.
  destruct (walkEntry_registered _ _ _ _ Hrun) as [Hreg Hvis].
  destruct (traverse_complete _ _ _ _ Hrun) as [_ Hc].
  apply Hreg; [|done]. apply Hvis.
  destruct (Hc id Hid) as [Hnil|Hcomplete]; [by apply elem_of_nil in Hnil|].
  by eapply Hcomplete.
Qed.

End BuilderFacts.

(** ** Sorting the nodes *)

Lemma insertByOrder_last (n : DagNode) (acc : list DagNode) :
  (∀ m, m ∈ acc → (n_order m ≤ n_order n)%nat) → insertByOrder n acc = acc ++ [n].
Proof.
  induction acc as [|m acc IH]; intros Hle; simpl; [done|].
  assert (n_order m ≤ n_order n)%nat by (apply Hle; left).
  destruct (Nat.ltb_spec (n_order n) (n_order m)); [lia|].
  rewrite IH; [done|]. intros m' Hm'. apply Hle. by right.
Qed.

Lemma foldl_insertByOrder_ascending (l : list DagNode) : ∀ start acc,
  n_order <$> l = seq start (length l) →
  (∀ m, m ∈ acc → (n_order m < start)%nat) →
  foldl (λ acc n, insertByOrder n acc) acc l = acc ++ l.
Proof.
  induction l as [|n l IH]; intros start acc Hseq Hacc; simpl.
  { by rewrite app_nil_r. }
  injection Hseq as Hn Hl.
  rewrite insertByOrder_last.
  - rewrite (IH (S start)); [by rewrite <- app_assoc | done |].
    intros m [Hm| ->%list_elem_of_singleton]%elem_of_app; [|lia].
    apply Hacc in Hm. lia.
  - intros m Hm. apply Hacc in Hm. lia.
Qed.

(** Sorting an array whose orders already count up changes nothing. *)
Lemma sortByOrder_ascending l start :
  n_order <$> l = seq start (length l) → sortByOrder l = l.
Proof.
  intros Hseq. unfold sortByOrder.
  rewrite (foldl_insertByOrder_ascending l start []); [done | done |].
  intros m Hm. by apply elem_of_nil in Hm.
Qed.

(** ** Node orders (C5) *)

(** C5: in the output of every run the orders of the N nodes are exactly
    1, 2, ..., N in sequence order and no id occurs twice; the nodes are in
    creation order (sorting by order leaves the array of the builder as it
    is) and the counter ends at N + 1; the counter is shared by the entries:
    the nodes created by the first entries are a prefix of the final node
    sequence, so later entries continue the numbering. *)
Theorem C5_orders_are_1_to_N `{PathLib} root supportedExts moduleGraph fuel ents out :
  buildDag root supportedExts moduleGraph fuel ents = Some out →
  n_order <$> out_nodes out = seq 1 (length (out_nodes out)) ∧
  NoDup (n_id <$> out_nodes out) ∧
  (∃ b, forEntries root supportedExts moduleGraph fuel ents emptyBuilder = Some b ∧
        out_nodes out = nodes b ∧
        sortByOrder (nodes b) = nodes b ∧
        orderCounter b = S (length (nodes b))) ∧
  (∀ ents1 ents2, ents = ents1 ++ ents2 →
     ∃ b1, forEntries root supportedExts moduleGraph fuel ents1 emptyBuilder = Some b1 ∧
           nodes b1 `prefix_of` out_nodes out ∧
           n_order <$> nodes b1 = seq 1 (length (nodes b1))).
Proof.
  unfold buildDag. intros Hrun.
  destruct (forEntries root supportedExts moduleGraph fuel ents emptyBuilder)
    as [b|] eqn:Hb; [|done].
  injection Hrun as <-.
  destruct (forEntries_wf _ _ _ _ _ _ _ wf_empty Hb) as [Hwf _].
  assert (Hsort : sortByOrder (nodes b) = nodes b).
  { eapply sortByOrder_ascending, wf_orders, Hwf. }
  simpl. rewrite Hsort. split_and!.
  - apply Hwf.
  - apply Hwf.
  - exists b. split_and!; try done. apply Hwf.
  - intros ents1 ents2 ->. rewrite forEntries_app in Hb.
    destruct (forEntries root supportedExts moduleGraph fuel ents1 emptyBuilder)
      as [b1|] eqn:Hb1; [|done].
    simpl in Hb. exists b1.
    destruct (forEntries_wf _ _ _ _ _ _ _ wf_empty Hb1) as [Hwf1 _].
    destruct (forEntries_wf _ _ _ _ _ _ _ Hwf1 Hb) as [_ Hg].
    split_and!; [done | apply Hg | apply Hwf1].
Qed.

(** ** Fuel does not matter *)

Lemma buildDag_fuel_mono `{PathLib} root supportedExts moduleGraph fuel fuel' ents out :
  fuel ≤ fuel' →
  buildDag root supportedExts moduleGraph fuel ents = Some out →
  buildDag root supportedExts moduleGraph fuel' ents = Some out.
Proof.
  unfold buildDag. intros Hle Hrun.
  destruct (forEntries root supportedExts moduleGraph fuel ents emptyBuilder)
    as [b|] eqn:Hb; [|done].
  by rewrite (forEntries_fuel_mono _ _ _ _ _ _ _ _ Hle Hb).
Qed.

Lemma buildDag_enough `{PathLib} root supportedExts moduleGraph ents out k :
  buildDag root supportedExts moduleGraph (enoughFuel moduleGraph) ents = Some out →
  buildDag root supportedExts moduleGraph (enoughFuel moduleGraph + k) ents = Some out.
Proof. apply buildDag_fuel_mono. lia. Qed.

Lemma buildDag_fuel_irrelevant `{PathLib} root supportedExts moduleGraph fuel fuel' ents out out' :
  buildDag root supportedExts moduleGraph fuel ents = Some out →
  buildDag root supportedExts moduleGraph fuel' ents = Some out' →
  out = out'.
Proof.
  intros H1 H2.
  apply (buildDag_fuel_mono _ _ _ _ (fuel `max` fuel')) in H1; [|lia].
  apply (buildDag_fuel_mono _ _ _ _ (fuel `max` fuel')) in H2; [|lia].
  congruence.
Qed.

(** The output arrays of a run are those of a well-formed builder. *)
Lemma buildDag_builder `{PathLib} root supportedExts moduleGraph fuel ents out :
  buildDag root supportedExts moduleGraph fuel ents = Some out →
  ∃ b, forEntries root supportedExts moduleGraph fuel ents emptyBuilder = Some b ∧
       wf b ∧ out_nodes out = nodes b ∧ out_edges out = edges b ∧
       out_entries out = entryRelIds b.
Proof.
  unfold buildDag. intros Hrun.
  destruct (forEntries root supportedExts moduleGraph fuel ents emptyBuilder)
    as [b|] eqn:Hb; [|done].
  injection Hrun as <-.
  destruct (forEntries_wf _ _ _ _ _ _ _ wf_empty Hb) as [Hwf _].
  exists b. split_and!; try done. simpl.
  eapply sortByOrder_ascending, wf_orders, Hwf.
Qed.

(** No id and no (source, target, kind) triple occurs twice in an output. *)
Lemma output_keys_unique `{PathLib} root supportedExts moduleGraph fuel ents out :
  buildDag root supportedExts moduleGraph fuel ents = Some out →
  NoDup (n_id <$> out_nodes out) ∧ NoDup (out_edges out).
Proof.
  intros (b & _ & Hwf & -> & -> & _)%buildDag_builder. split; [apply Hwf|].
  eapply NoDup_fmap_1, wf_edges, Hwf.
Qed.

(** The key of the edge set tells the two kinds apart. *)
Lemma edgeKey_kind fromRel toRel kind kind' :
  edgeKey fromRel toRel kind = edgeKey fromRel toRel kind' → kind = kind'.
Proof.
  unfold edgeKey. intros Heq.
  assert (Hinj : ∀ p a b, p +:+ a = p +:+ b → a = b).
  { induction p as [|c p IH]; intros a b Hab; [done|]. injection Hab. apply IH. }
  do 4 apply Hinj in Heq. by destruct kind, kind'.
Qed.

(** ** The example of the specification (C2) *)

Lemma generateBundle_fuel_mono `{PathLib} fuel fuel' config options moduleGraph o :
  fuel ≤ fuel' →
  generateBundle fuel config options moduleGraph = Some o →
  generateBundle fuel' config options moduleGraph = Some o.
Proof.
  intros Hle. unfold generateBundle. destruct config as [cfg|]; [|done].
  destruct (buildDag _ _ _ fuel _) as [out|] eqn:Hout; [|done].
  by rewrite (buildDag_fuel_mono _ _ _ _ _ _ _ Hle Hout).
Qed.

(** C2: on the example of the specification the hook produces the nodes
    src/main.ts (1), src/a.ts (2), src/b.ts (3), the entries [src/main.ts]
    and exactly the three edges main→a static, main→b dynamic and a→main
    static (the listing of the claim is a permutation of the edge array,
    whose creation order is main→a, a→main, main→b); this for every fuel
    from [enoughFuel] on. *)
Theorem C2_spec_example :
  (∀ k, @generateBundle Runs.posix (enoughFuel Runs.specGraph + k)
          specConfig specOptions Runs.specGraph = Some (Generated specResult)) ∧
  out_edges specResult ≡ₚ
    [ {| e_source := "src/main.ts"; e_target := "src/a.ts"; e_kind := static |};
      {| e_source := "src/main.ts"; e_target := "src/b.ts"; e_kind := dynamic |};
      {| e_source := "src/a.ts"; e_target := "src/main.ts"; e_kind := static |} ].
Proof.
  split.
  - intros k. apply (generateBundle_fuel_mono (enoughFuel Runs.specGraph)); [lia|].
    vm_compute. reflexivity.
  - simpl. apply perm_skip, perm_swap.
Qed.

(** ** Termination and the visited set (C6) *)

(** C6: for every module graph, cyclic or not, the run over any entries
    completes, with one and the same output for every fuel from
    [enoughFuel] on; in the walk of one entry the visited set holds the
    entry, the identifiers queried are exactly the visited ones, none is
    queried twice, and there are at most one plus the number of dependency
    identifiers of them; on the cycle of a and b the output has exactly the
    edges a→b static and b→a static. *)
Theorem C6_walk_terminates :
  (∀ (lib : PathLib) root supportedExts moduleGraph ents,
     ∃ out, ∀ k, buildDag root supportedExts moduleGraph
                   (enoughFuel moduleGraph + k) ents = Some out) ∧
  (∀ (lib : PathLib) root supportedExts moduleGraph fuel entry b w,
     walkEntry root supportedExts moduleGraph fuel entry b = Some w →
     entry ∈ visited w ∧
     NoDup (oracleLog w) ∧
     (∀ x, x ∈ oracleLog w ↔ x ∈ visited w) ∧
     length (oracleLog w) ≤ S (size (depIds moduleGraph))) ∧
  (∀ k, @buildDag Runs.posix Runs.root Runs.exts Runs.cycleGraph
          (enoughFuel Runs.cycleGraph + k) ["/proj/src/a.ts"] = Some cycleResult).
Proof.
  split_and!.
  - intros lib root supportedExts moduleGraph ents.
    destruct (forEntries_terminates root supportedExts moduleGraph ents emptyBuilder)
      as [b Hb].
    exists (resultOf b). intros k. apply buildDag_enough. unfold buildDag. by rewrite Hb.
  - intros lib root supportedExts moduleGraph fuel entry b w Hrun.
    destruct (walkEntry_log _ _ _ _ _ _ _ Hrun) as (Hnd & Hsub & _).
    destruct (walkEntry_registered _ _ _ _ _ _ _ Hrun) as [_ Hvis].
    split_and!.
    + apply traverse_grows in Hrun as (_ & Hv & _). apply Hv. simpl. set_solver.
    + done.
    + intros x. split; auto.
    + by eapply walkEntry_queries_bounded.
  - intros k. apply buildDag_enough. vm_compute. reflexivity.
Qed.

Lemma C6_walk_terminates_witness :
  ∃ w, @walkEntry Runs.posix Runs.root Runs.exts Runs.cycleGraph 3 "/proj/src/a.ts"
         emptyBuilder = Some w ∧
       NoDup (oracleLog w) ∧ length (oracleLog w) ≤ 3.
Proof.
  destruct (walkEntry_terminates (H:=Runs.posix) Runs.root Runs.exts Runs.cycleGraph
              "/proj/src/a.ts" emptyBuilder) as [w Hw].
  exists w. split; [exact Hw|].
  destruct (proj1 (proj2 C6_walk_terminates) Runs.posix Runs.root Runs.exts
              Runs.cycleGraph 3 "/proj/src/a.ts" emptyBuilder w Hw)
    as (_ & Hnd & _ & Hlen).
  split; [exact Hnd | exact Hlen].
Defined.

(** ** Identifiers unknown to the oracle (C8) *)

Lemma enter_edges `{PathLib} root supportedExts id fromRel b :
  edges (enter root supportedExts id fromRel b) = edges b.
Proof.
  unfold enter. destruct (_ && _); [|done].
  unfold ensureNode. by destruct (hasNode _ _).
Qed.

(** C8: when the oracle knows nothing of [id], [traverse id] returns at
    once and without error: the only query is the one for [id], the visited
    set and the edges are as before, and the builder changes only in that
    [id], if it passes the extension filter and has no node yet, gets the
    next node; without that it is unchanged. *)
Theorem C8_unknown_module_is_leaf `{PathLib} root supportedExts moduleGraph fuel id w :
  moduleGraph !! id = None →
  ∃ w', traverse root supportedExts moduleGraph (S fuel) id w = Some w' ∧
        oracleLog w' = oracleLog w ++ [id] ∧
        visited w' = visited w ∧
        edges (dag w') = edges (dag w) ∧
        (hasSupportedExt supportedExts id = true →
         hasNode (toRel root id) (dag w) = false →
         nodes (dag w') =
           nodes (dag w) ++ [{| n_id := toRel root id; n_order := orderCounter (dag w) |}] ∧
         hasNode (toRel root id) (dag w') = true) ∧
        (hasSupportedExt supportedExts id = false ∨ hasNode (toRel root id) (dag w) = true →
         dag w' = dag w).
Proof.
  intros Hnone. exists (afterEnter root supportedExts id w).
  rewrite traverse_S. unfold getModuleInfo. rewrite Hnone.
  split_and!; try done.
  - simpl. apply enter_edges.
  - intros Hext Hfresh. simpl. unfold enter. rewrite Hext, Hfresh. simpl.
    rewrite ensureNode_fresh by done. simpl. split; [done|].
    apply hasNode_true. simpl. rewrite lookup_insert_eq. by eexists.
  - intros [Hext|Hhas]; simpl; unfold enter.
    + by rewrite Hext.
    + rewrite Hhas. by rewrite andb_false_r.
Qed.

Lemma C8_unknown_module_is_leaf_witness :
  ∃ w', @traverse Runs.posix Runs.root Runs.exts Runs.specGraph 1 "/proj/src/b.ts"
          {| dag := emptyBuilder; visited := {["/proj/src/b.ts"]}; oracleLog := [] |}
        = Some w' ∧
        oracleLog w' = ["/proj/src/b.ts"] ∧
        nodes (dag w') = [{| n_id := "src/b.ts"; n_order := 1 |}] ∧
        edges (dag w') = [].
Proof.
  destruct (@C8_unknown_module_is_leaf Runs.posix Runs.root Runs.exts Runs.specGraph 0
              "/proj/src/b.ts"
              {| dag := emptyBuilder; visited := {["/proj/src/b.ts"]}; oracleLog := [] |})
    as (w' & Hrun & Hlog & _ & Hedges & Hnode & _).
  { vm_compute. reflexivity. }
  exists w'. split; [exact Hrun|]. split; [exact Hlog|]. split; [|exact Hedges].
  destruct Hnode as [Hnodes _]; [vm_compute; reflexivity | vm_compute; reflexivity |].
  exact Hnodes.
Defined.

Lemma C5_orders_are_1_to_N_witness :
  @buildDag Runs.posix Runs.root Runs.exts Runs.specGraph 4 ["/proj/src/main.ts"]
    = Some specResult ∧
  n_order <$> out_nodes specResult = seq 1 (length (out_nodes specResult)) ∧
  NoDup (n_id <$> out_nodes specResult).
Proof.
  assert (Hrun : @buildDag Runs.posix Runs.root Runs.exts Runs.specGraph 4
                   ["/proj/src/main.ts"] = Some specResult) by (vm_compute; reflexivity).
  split; [exact Hrun|].
  destruct (@C5_orders_are_1_to_N Runs.posix Runs.root Runs.exts Runs.specGraph 4
              ["/proj/src/main.ts"] specResult Hrun) as (Hseq & Hnd & _).
  split; [exact Hseq | exact Hnd].
Defined.

(** ** Skipped dependencies (C1) *)

(** C1, as stated, fails: main.ts imports a script inside node_modules,
    which imports hidden.ts; the walk from main.ts queries the oracle for
    main.ts only. *)
Lemma C1_counterexample : ¬ skipped_dependency_is_traversed.
Proof.
  intros Hclaim.
  assert (Hlog : oracleLog <$> @walkEntry Runs.posix Runs.root Runs.exts Runs.vendorGraph 3
                    "/proj/src/main.ts" emptyBuilder = Some ["/proj/src/main.ts"])
    by (vm_compute; reflexivity).
  destruct (@walkEntry Runs.posix Runs.root Runs.exts Runs.vendorGraph 3
              "/proj/src/main.ts" emptyBuilder) as [w|] eqn:Hw; [|done].
  injection Hlog as Hlog.
  specialize (Hclaim Runs.posix Runs.root Runs.exts Runs.vendorGraph 3 "/proj/src/main.ts"
                emptyBuilder w "/proj/src/main.ts"
                (Runs.info ["/proj/node_modules/lib/index.js"] [])
                "/proj/node_modules/lib/index.js" Hw).
  rewrite Hlog in Hclaim.
  assert (Hin : "/proj/node_modules/lib/index.js" ∈ ["/proj/src/main.ts"]).
  { apply Hclaim; [by left | by vm_compute | by left | by vm_compute]. }
  by apply list_elem_of_singleton in Hin.
Qed.

(** C1 (amended): a dependency that the skip policy matches is passed over
    by the loop: the iteration leaves the builder, the visited set and the
    oracle log as they are (no node, no edge, no recursion) and the loop goes
    on with the next dependency. Hence every identifier queried in the walk
    of an entry is the entry or an identifier that is not skipped, every
    node of an output is the canonical form of an entry or of an identifier
    that is not skipped, and every edge has such a source and a target that
    is not skipped. *)
Theorem C1_skipped_dependency_passed_over `{PathLib} root supportedExts moduleGraph :
  (∀ rec id fromRel kind dep rest w,
     shouldSkip dep = true →
     forDeps root supportedExts rec id fromRel kind (dep :: rest) w =
     forDeps root supportedExts rec id fromRel kind rest w) ∧
  (∀ fuel entry b w,
     walkEntry root supportedExts moduleGraph fuel entry b = Some w →
     ∀ x, x ∈ oracleLog w → x = entry ∨ shouldSkip x = false) ∧
  (∀ fuel ents out,
     buildDag root supportedExts moduleGraph fuel ents = Some out →
     (∀ n, n ∈ out_nodes out →
        ∃ raw, n_id n = toRel root raw ∧ hasSupportedExt supportedExts raw = true ∧
               (raw ∈ ents ∨ shouldSkip raw = false)) ∧
     (∀ e, e ∈ out_edges out →
        ∃ id dep, e_source e = toRel root id ∧ e_target e = toRel root dep ∧
                  (id ∈ ents ∨ shouldSkip id = false) ∧ shouldSkip dep = false)).
Proof.
  split_and!.
  - intros rec id fromRel kind dep rest w Hskip. rewrite forDeps_cons. by rewrite Hskip.
  - intros fuel entry b w Hrun x Hx.
    destruct (walkEntry_log _ _ _ _ _ _ _ Hrun) as (_ & _ & Hfrom).
    destruct (Hfrom x Hx) as [->|[_ Hskip]]; [by left | by right].
  - intros fuel ents out (b & Hb & Hwf & -> & -> & _)%buildDag_builder.
    pose proof (forEntries_provenance root supportedExts moduleGraph
                  (λ x, x ∈ ents ∨ shouldSkip x = false)
                  (λ dep Hskip, or_intror Hskip) fuel ents emptyBuilder b
                  (λ entry Hin, or_introl Hin) wf_empty
                  (prov_empty root supportedExts _) Hb) as [Hn He].
    split.
    + intros n Hin. exact (Hn n Hin).
    + intros e Hin. destruct (He e Hin) as (_ & _ & id & dep & ? & ? & _ & _ & ? & ?).
      by exists id, dep.
Qed.

Lemma C1_skipped_dependency_passed_over_witness :
  ∃ w, @walkEntry Runs.posix Runs.root Runs.exts Runs.vendorGraph 3 "/proj/src/main.ts"
         emptyBuilder = Some w ∧
       ∀ x, x ∈ oracleLog w → x = "/proj/src/main.ts" ∨ shouldSkip x = false.
Proof.
  destruct (walkEntry_terminates (H:=Runs.posix) Runs.root Runs.exts Runs.vendorGraph
              "/proj/src/main.ts" emptyBuilder) as [w Hw].
  exists w. split; [exact Hw|].
  exact (proj1 (proj2 (@C1_skipped_dependency_passed_over Runs.posix Runs.root Runs.exts
                         Runs.vendorGraph)) _ _ _ _ Hw).
Defined.

(** ** Edges and the extension filter (C3) *)

(** C3, as stated, fails: a style sheet imports a script inside
    node_modules; the script passes the extension filter, the style sheet
    does not, and the script gets no node because the skip policy comes
    first. *)
Lemma C3_counterexample : ¬ qualifying_dependency_is_registered.
Proof.
  intros Hclaim.
  assert (Hout : (λ w, (oracleLog w, n_id <$> nodes (dag w))) <$>
                   @walkEntry Runs.posix Runs.root Runs.exts Runs.styleGraph 2
                     "/proj/src/style.css" emptyBuilder
                 = Some (["/proj/src/style.css"], []))
    by (vm_compute; reflexivity).
  destruct (@walkEntry Runs.posix Runs.root Runs.exts Runs.styleGraph 2
              "/proj/src/style.css" emptyBuilder) as [w|] eqn:Hw; [|done].
  injection Hout as Hlog Hnodes.
  specialize (Hclaim Runs.posix Runs.root Runs.exts Runs.styleGraph 2 "/proj/src/style.css"
                emptyBuilder w "/proj/src/style.css"
                (Runs.info ["/proj/node_modules/lib/index.js"] [])
                "/proj/node_modules/lib/index.js" Hw).
  rewrite Hlog, Hnodes in Hclaim.
  assert (Hin : @toRel Runs.posix Runs.root "/proj/node_modules/lib/index.js" ∈ []).
  { apply Hclaim; [by left | by vm_compute | by left | by vm_compute | by vm_compute]. }
  by apply elem_of_nil in Hin.
Qed.

(** C3 (amended): every edge of an output joins two nodes of the output
    and was made from a source and a target identifier that both pass the
    extension filter; after the walk of an entry every dependency of a
    queried identifier that the skip policy does not match and that passes
    the filter has a node, whether its source passes the filter or not; and
    recording a dependency of a source that does not pass the filter adds no
    edge. *)
Theorem C3_edges_join_supported_nodes `{PathLib} root supportedExts moduleGraph :
  (∀ fuel ents out,
     buildDag root supportedExts moduleGraph fuel ents = Some out →
     ∀ e, e ∈ out_edges out →
       e_source e ∈ n_id <$> out_nodes out ∧
       e_target e ∈ n_id <$> out_nodes out ∧
       ∃ id dep, e_source e = toRel root id ∧ e_target e = toRel root dep ∧
                 hasSupportedExt supportedExts id = true ∧
                 hasSupportedExt supportedExts dep = true) ∧
  (∀ fuel ents b entry w id info dep,
     forEntries root supportedExts moduleGraph fuel ents emptyBuilder = Some b →
     walkEntry root supportedExts moduleGraph fuel entry b = Some w →
     id ∈ oracleLog w → moduleGraph !! id = Some info →
     dep ∈ importedIds info ++ dynamicallyImportedIds info →
     shouldSkip dep = false →
     hasSupportedExt supportedExts dep = true →
     toRel root dep ∈ n_id <$> nodes (dag w)) ∧
  (∀ id fromRel kind dep b,
     hasSupportedExt supportedExts id = false →
     edges (recordDep root supportedExts id fromRel kind dep b) = edges b).
Proof.
  split_and!.
  - intros fuel ents out (b & Hb & Hwf & -> & -> & _)%buildDag_builder e Hin.
    pose proof (forEntries_provenance root supportedExts moduleGraph
                  (λ _, True) (λ _ _, I) fuel ents emptyBuilder b
                  (λ _ _, I) wf_empty (prov_empty root supportedExts _) Hb) as [_ He].
    destruct (He e Hin) as (Hs & Ht & id & dep & ? & ? & ? & ? & _).
    split_and!; [done | done |]. by exists id, dep.
  - intros fuel ents b entry w id info dep Hb Hrun Hid Hinfo Hdep Hskip Hext.
    destruct (forEntries_wf _ _ _ _ _ _ _ wf_empty Hb) as [Hwf _].
    apply hasNode_nodes; [by eapply walkEntry_wf|].
    by eapply walkEntry_deps_registered.
  - intros id fromRel kind dep b Hext. unfold recordDep. rewrite Hext. simpl.
    destruct (_ && _); [|done].
    unfold ensureNode. by destruct (hasNode _ _).
Qed.

Lemma C3_edges_join_supported_nodes_witness :
  @buildDag Runs.posix Runs.root Runs.exts Runs.specGraph 4 ["/proj/src/main.ts"]
    = Some specResult ∧
  ∀ e, e ∈ out_edges specResult →
    e_source e ∈ n_id <$> out_nodes specResult ∧
    e_target e ∈ n_id <$> out_nodes specResult.
Proof.
  assert (Hrun : @buildDag Runs.posix Runs.root Runs.exts Runs.specGraph 4
                   ["/proj/src/main.ts"] = Some specResult) by (vm_compute; reflexivity).
  split; [exact Hrun|]. intros e He.
  destruct (proj1 (@C3_edges_join_supported_nodes Runs.posix Runs.root Runs.exts
                     Runs.specGraph) 4 ["/proj/src/main.ts"] specResult Hrun e He)
    as (Hs & Ht & _).
  split; [exact Hs | exact Ht].
Defined.

(** ** Uniqueness of nodes and edges (C4) *)

(** C4 at an input where it fails: the module x.ts|y.ts imports c.ts both
    statically and dynamically, but only the static edge is in the output;
    the dynamic one is dropped because its key, the text
    x.ts|y.ts|c.ts|dynamic, is also the key of the edge from x.ts to
    y.ts|c.ts that was recorded before. (Ids and triples are never repeated:
    [output_keys_unique]; the key tells the kinds apart: [edgeKey_kind].) *)
Theorem C4_edge_key_collision :
  (∀ k, @buildDag Runs.posix Runs.root Runs.exts Runs.barGraph
          (enoughFuel Runs.barGraph + k) ["/proj/x.ts"; "/proj/x.ts|y.ts"]
        = Some barResult) ∧
  (Runs.barGraph !! "/proj/x.ts|y.ts" = Some (Runs.info ["/proj/c.ts"] ["/proj/c.ts"])) ∧
  ({| e_source := "x.ts|y.ts"; e_target := "c.ts"; e_kind := static |} ∈ out_edges barResult) ∧
  ({| e_source := "x.ts|y.ts"; e_target := "c.ts"; e_kind := dynamic |} ∉ out_edges barResult) ∧
  (edgeKey "x.ts" "y.ts|c.ts" dynamic = edgeKey "x.ts|y.ts" "c.ts" dynamic).
Proof.
  split_and!.
  - intros k. apply buildDag_enough. vm_compute. reflexivity.
  - vm_compute. reflexivity.
  - simpl. right. left.
  - simpl. intros [?|[?|?%elem_of_nil]%elem_of_cons]%elem_of_cons; done.
  - reflexivity.
Qed.

(** * Further properties of the code *)

(** ** [normalizeId]: the query string *)

Module QueryFacts.

Lemma includes_char_cons c a s :
  Js.includes (String c "") (String a s) = Ascii.eqb c a || Js.includes (String c "") s.
Proof.
  rewrite JsFacts.includes_unfold. simpl. by destruct (Ascii.eqb c a).
Qed.

Lemma includes_char_nil c : Js.includes (String c "") "" = false.
Proof. reflexivity. Qed.

(** A string without the separator is the only piece of its split. *)
Lemma split_no_sep c s : Js.includes (String c "") s = false → Js.split c s = [s].
Proof.
  induction s as [|a s IH]; [done|].
  rewrite includes_char_cons, orb_false_iff. intros [Hac Hs]. simpl.
  rewrite Ascii.eqb_sym, Hac, (IH Hs). done.
Qed.

(** The first piece of a split has no separator in it. *)
Lemma split_head_no_sep c s : Js.includes (String c "") (hd "" (Js.split c s)) = false.
Proof.
  induction s as [|a s IH]; [done|].
  change (Js.split c (String a s)) with
    (if Ascii.eqb a c then "" :: Js.split c s
     else match Js.split c s with
          | [] => [String a ""]
          | h :: t => String a h :: t
          end).
  destruct (Ascii.eqb a c) eqn:Hac; [done|].
  destruct (Js.split c s) as [|h t]; cbn [hd] in *.
  - rewrite includes_char_cons, Ascii.eqb_sym, Hac. done.
  - rewrite includes_char_cons, Ascii.eqb_sym, Hac. exact IH.
Qed.

(** Splitting after a prefix without separator. *)
Lemma split_app_sep c p q :
  Js.includes (String c "") p = false →
  Js.split c (p +:+ String c q) = p :: Js.split c q.
Proof.
  induction p as [|a p IH].
  - intros _. simpl. by rewrite Ascii.eqb_refl.
  - rewrite includes_char_cons, orb_false_iff. intros [Hac Hp].
    change (String a p +:+ String c q) with (String a (p +:+ String c q)).
    change (Js.split c (String a (p +:+ String c q))) with
      (if Ascii.eqb a c then "" :: Js.split c (p +:+ String c q)
       else match Js.split c (p +:+ String c q) with
            | [] => [String a ""]
            | h :: t => String a h :: t
            end).
    by rewrite Ascii.eqb_sym, Hac, (IH Hp).
Qed.

(** An identifier is the first piece of its split followed by nothing or
    by a separator and the rest. *)
Lemma split_head_rest c s :
  ∃ rest, s = hd "" (Js.split c s) +:+ rest ∧ (rest = "" ∨ ∃ q, rest = String c q).
Proof.
  induction s as [|a s (rest & Hs & Hrest)].
  { exists "". split; [done | by left]. }
  change (Js.split c (String a s)) with
    (if Ascii.eqb a c then "" :: Js.split c s
     else match Js.split c s with
          | [] => [String a ""]
          | h :: t => String a h :: t
          end).
  destruct (Ascii.eqb_spec a c) as [->|Hac].
  - exists (String c s). split; [done|]. right. by exists s.
  - exists rest. split; [|done].
    destruct (Js.split c s) as [|h t]; cbn [hd] in *.
    + change (String a s = String a ("" +:+ rest)). by f_equal.
    + change (String a s = String a (h +:+ rest)). by f_equal.
Qed.

End QueryFacts.

(** X1: [normalizeId] returns the part of the identifier before its first
    question mark: the identifier is the result followed by nothing or by a
    question mark and the rest, the result holds no question mark, and
    normalising again changes nothing. *)
Theorem normalizeId_prefix_without_query :
  (∀ id, ∃ rest, id = normalizeId id +:+ rest ∧
                 (rest = "" ∨ ∃ q, rest = String "?" q)) ∧
  (∀ id, Js.includes "?" (normalizeId id) = false) ∧
  (∀ id, normalizeId (normalizeId id) = normalizeId id).
Proof.
  split_and!.
  - intros id. apply QueryFacts.split_head_rest.
  - intros id. apply QueryFacts.split_head_no_sep.
  - intros id. unfold normalizeId at 1.
    by rewrite QueryFacts.split_no_sep by apply QueryFacts.split_head_no_sep.
Qed.

(** X2: a query string does not change what the builder sees of an
    identifier: for [p] without question mark, [p?q] has the normal form
    [p], the same canonical id and the same verdict of the extension filter
    as [p], and [ensureNode] on it after [ensureNode] on [p] adds nothing. *)
Theorem query_is_ignored `{PathLib} root supportedExts p q b :
  Js.includes "?" p = false →
  normalizeId (p +:+ "?" +:+ q) = p ∧
  toRel root (p +:+ "?" +:+ q) = toRel root p ∧
  hasSupportedExt supportedExts (p +:+ "?" +:+ q) = hasSupportedExt supportedExts p ∧
  ensureNode root (p +:+ "?" +:+ q) (ensureNode root p b).2 =
    (toRel root p, (ensureNode root p b).2).
Proof.
  intros Hp.
  assert (Hq : normalizeId (p +:+ "?" +:+ q) = p).
  { unfold normalizeId. change (p +:+ "?" +:+ q) with (p +:+ String "?" q).
    by rewrite QueryFacts.split_app_sep. }
  assert (Hid : normalizeId p = p).
  { unfold normalizeId. by rewrite QueryFacts.split_no_sep. }
  assert (Hrel : toRel root (p +:+ "?" +:+ q) = toRel root p).
  { unfold toRel. by rewrite Hq, Hid. }
  split_and!; [done | done | |].
  - unfold hasSupportedExt. by rewrite Hq, Hid.
  - rewrite (surjective_pairing (ensureNode root (p +:+ "?" +:+ q) _)).
    rewrite ensureNode_fst, Hrel. f_equal.
    apply ensureNode_present. rewrite Hrel. apply ensureNode_hasNode.
Qed.

Lemma query_is_ignored_witness :
  normalizeId "/proj/src/App.vue?vue&type=script" = "/proj/src/App.vue" ∧
  @toRel Runs.posix Runs.root "/proj/src/App.vue?vue&type=script" = "src/App.vue".
Proof.
  destruct (@query_is_ignored Runs.posix Runs.root Runs.exts "/proj/src/App.vue"
              "vue&type=script" emptyBuilder) as (Hn & Hrel & _).
  { vm_compute. reflexivity. }
  split; [exact Hn|]. etransitivity; [exact Hrel|]. vm_compute. reflexivity.
Defined.

(** ** [normalizeExt]: the configured extensions *)

Module ExtFacts.

Ltac all_chars a := destruct a as [[] [] [] [] [] [] [] []]; reflexivity.

Lemma lowerChar_idem a : Js.lowerChar (Js.lowerChar a) = Js.lowerChar a.
Proof. all_chars a. Qed.

Lemma isSpace_lowerChar a : Js.isSpace (Js.lowerChar a) = Js.isSpace a.
Proof. all_chars a. Qed.

Lemma toLowerCase_idem s : Js.toLowerCase (Js.toLowerCase s) = Js.toLowerCase s.
Proof. induction s as [|a s IH]; simpl; [done|]. by rewrite lowerChar_idem, IH. Qed.

Lemma trimStart_lower s : Js.trimStart (Js.toLowerCase s) = Js.toLowerCase (Js.trimStart s).
Proof.
  induction s as [|a s IH]; simpl; [done|].
  rewrite isSpace_lowerChar. by destruct (Js.isSpace a).
Qed.

Lemma trimEnd_lower s : Js.trimEnd (Js.toLowerCase s) = Js.toLowerCase (Js.trimEnd s).
Proof.
  induction s as [|a s IH]; simpl; [done|].
  rewrite IH, isSpace_lowerChar.
  destruct (Js.trimEnd s); simpl; [by destruct (Js.isSpace a) | done].
Qed.

Lemma trimEnd_idem s : Js.trimEnd (Js.trimEnd s) = Js.trimEnd s.
Proof.
  induction s as [|a s IH]; simpl; [done|].
  destruct (Js.trimEnd s) as [|c t] eqn:Ht.
  - destruct (Js.isSpace a) eqn:Ha; simpl; [done|]. by rewrite Ha.
  - change (Js.trimEnd (String a (String c t))) with
      (match Js.trimEnd (String c t) with
       | "" => if Js.isSpace a then "" else String a ""
       | u => String a u
       end).
    by rewrite IH.
Qed.

Lemma headOk_trimStart s : headOk (Js.trimStart s).
Proof.
  induction s as [|a s IH]; simpl; [done|].
  destruct (Js.isSpace a) eqn:Ha; [done | exact Ha].
Qed.

Lemma trimStart_headOk s : headOk s → Js.trimStart s = s.
Proof. destruct s as [|a s]; simpl; [done|]. by intros ->. Qed.

Lemma headOk_trimEnd s : headOk s → headOk (Js.trimEnd s).
Proof.
  destruct s as [|a s]; simpl; [done|]. intros Ha.
  rewrite Ha. by destruct (Js.trimEnd s).
Qed.

Lemma trim_idem s : Js.trim (Js.trim s) = Js.trim s.
Proof.
  unfold Js.trim.
  rewrite (trimStart_headOk (Js.trimEnd _)) by apply headOk_trimEnd, headOk_trimStart.
  apply trimEnd_idem.
Qed.

Lemma trim_lower s : Js.trim (Js.toLowerCase s) = Js.toLowerCase (Js.trim s).
Proof. unfold Js.trim. by rewrite trimStart_lower, trimEnd_lower. Qed.

End ExtFacts.

(** X3: [normalizeExt] yields a normal form: the result starts with a dot,
    is in lower case and has no white space around it, and normalising it
    again changes nothing; every configured extension, the defaults
    included, starts with a dot and is in lower case. *)
Theorem normalizeExt_normal_form :
  (∀ ext, Js.startsWith "." (normalizeExt ext) = true ∧
          Js.toLowerCase (normalizeExt ext) = normalizeExt ext ∧
          Js.trim (normalizeExt ext) = normalizeExt ext ∧
          normalizeExt (normalizeExt ext) = normalizeExt ext) ∧
  (∀ extensions e, e ∈ configuredExts extensions →
          Js.startsWith "." e = true ∧ Js.toLowerCase e = e).
Proof.
  assert (Hnf : ∀ ext, Js.startsWith "." (normalizeExt ext) = true ∧
          Js.toLowerCase (normalizeExt ext) = normalizeExt ext ∧
          Js.trim (normalizeExt ext) = normalizeExt ext).
  { intros ext. unfold normalizeExt.
    set (e := Js.toLowerCase (Js.trim ext)).
    assert (Hlow : Js.toLowerCase e = e) by apply ExtFacts.toLowerCase_idem.
    assert (Htrim : Js.trim e = e).
    { unfold e. by rewrite ExtFacts.trim_lower, ExtFacts.trim_idem. }
    destruct (Js.startsWith "." e) eqn:Hdot; [done|].
    split_and!; [done | |].
    - change ("." +:+ e) with (String "." e). simpl. by rewrite Hlow.
    - change ("." +:+ e) with (String "." e). unfold Js.trim.
      change (Js.trimStart (String "." e)) with (String "." e).
      assert (Hend : Js.trimEnd e = e).
      { unfold e, Js.trim. by rewrite <- ExtFacts.trimEnd_lower, ExtFacts.trimEnd_idem. }
      change (Js.trimEnd (String "." e)) with
        (match Js.trimEnd e with "" => String "." "" | u => String "." u end).
      rewrite Hend. by destruct e. }
  split.
  - intros ext. destruct (Hnf ext) as (Hdot & Hlow & Htrim). split_and!; try done.
    unfold normalizeExt at 1. by rewrite Htrim, Hlow, Hdot.
  - intros [|exts] e; simpl.
    + intros He. repeat (apply elem_of_cons in He as [->|He]; [done|]).
      by apply elem_of_nil in He.
    + destruct (0 <? length exts).
      * intros (ext & -> & _)%list_elem_of_fmap. by destruct (Hnf ext) as (? & ? & _).
      * intros He. repeat (apply elem_of_cons in He as [->|He]; [done|]).
        by apply elem_of_nil in He.
Qed.

Lemma normalizeExt_normal_form_witness :
  ".ts" ∈ configuredExts (ArrayOf [" TS "; "Vue"]) ∧ Js.startsWith "." ".ts" = true.
Proof.
  assert (Hin : ".ts" ∈ configuredExts (ArrayOf [" TS "; "Vue"])) by (vm_compute; left).
  split; [exact Hin|].
  exact (proj1 (proj2 normalizeExt_normal_form (ArrayOf [" TS "; "Vue"]) ".ts" Hin)).
Defined.

(** X4: with a non-empty [extensions] array an identifier passes the
    extension filter exactly when the lower-cased [extname] of its normal
    form is the normal form of one of the configured extensions: case,
    surrounding white space and a missing dot in the option do not matter,
    and normalising the option beforehand gives the same filter. *)
Theorem hasSupportedExt_configured `{PathLib} exts id :
  exts ≠ [] →
  (hasSupportedExt (supportedExtsOf (ArrayOf exts)) id = true ↔
     ∃ ext, ext ∈ exts ∧
            Js.toLowerCase (extname (normalizeId id)) = normalizeExt ext) ∧
  supportedExtsOf (ArrayOf (normalizeExt <$> exts)) = supportedExtsOf (ArrayOf exts).
Proof.
  intros Hne.
  assert (Hcfg : ∀ l, l ≠ [] → configuredExts (ArrayOf l) = normalizeExt <$> l).
  { intros [|x l] Hl; [done|]. reflexivity. }
  split.
  - unfold hasSupportedExt, supportedExtsOf.
    rewrite bool_decide_eq_true, elem_of_list_to_set, (Hcfg _ Hne), list_elem_of_fmap.
    split; intros (ext & ? & ?); by exists ext.
  - unfold supportedExtsOf. rewrite (Hcfg exts Hne), Hcfg by (by destruct exts).
    f_equal. rewrite <- list_fmap_compose. apply list_fmap_ext.
    intros _ ext _. apply normalizeExt_normal_form.
Qed.

Lemma hasSupportedExt_configured_witness :
  @hasSupportedExt Runs.posix (supportedExtsOf (ArrayOf [" TS "; "Vue"])) "/proj/src/Main.Ts?x"
    = true.
Proof.
  apply (proj1 (@hasSupportedExt_configured Runs.posix [" TS "; "Vue"] "/proj/src/Main.Ts?x"
                  ltac:(discriminate))).
  exists " TS ". split; [left | vm_compute; reflexivity].
Defined.

(** ** The [entries] array of the output *)

Section EntryFacts.

Context `{PathLib}.
Variable root : string.
Variable supportedExts : gset string.
Variable moduleGraph : gmap string ModuleInfo.

Local Abbreviation toRel := (toRel root).
Local Abbreviation hasSupportedExt := (hasSupportedExt supportedExts).
Local Abbreviation ensureNode := (ensureNode root).
Local Abbreviation traverse := (traverse root supportedExts moduleGraph).
Local Abbreviation walkEntry := (walkEntry root supportedExts moduleGraph).
Local Abbreviation processEntry := (processEntry root supportedExts moduleGraph).
Local Abbreviation forEntries := (forEntries root supportedExts moduleGraph).

Local Abbreviation listedEntry := (listedEntry supportedExts).

Lemma ensureNode_entryRelIds absId b :
  entryRelIds (ensureNode absId b).2 = entryRelIds b.
Proof. unfold ensureNode. by destruct (hasNode _ _). Qed.

Lemma addEdge_entryRelIds fromRel toRel' kind b :
  entryRelIds (addEdge fromRel toRel' kind b) = entryRelIds b.
Proof. unfold addEdge. by destruct (bool_decide _). Qed.

Lemma traverse_entryRelIds fuel id w w' :
  traverse fuel id w = Some w' → entryRelIds (dag w') = entryRelIds (dag w).
Proof.
  intros Hrun.
  assert (Henter : ∀ x v, entryRelIds (dag (afterEnter root supportedExts x v))
                          = entryRelIds (dag v)).
  { intros x v. simpl. unfold enter. destruct (_ && _); [|done].
    apply ensureNode_entryRelIds. }
  destruct (traverse_invariant root supportedExts moduleGraph
              (λ v, entryRelIds (dag v) = entryRelIds (dag w)))
    with (4 := Hrun) as [HP _]; [| | |done].
  - intros dep v _ _ _ Hv. by rewrite Henter.
  - intros x kind dep v _ _ Hv. simpl. rewrite <- Hv. unfold recordDep.
    destruct (_ && _).
    + rewrite addEdge_entryRelIds. destruct (negb _); [|done].
      apply ensureNode_entryRelIds.
    + destruct (_ && _); [|done]. apply ensureNode_entryRelIds.
  - by rewrite Henter.
Qed.

Lemma processEntry_entryRelIds fuel entry b b' :
  processEntry fuel entry b = Some b' →
  entryRelIds b' = entryRelIds b ++ (if listedEntry entry then [toRel entry] else []).
Proof.
  unfold processEntry, listedEntry.
  destruct (Js.truthy entry); simpl.
  - destruct (walkEntry fuel entry b) as [w|] eqn:Hrun; [|done].
    intros [= <-]. apply traverse_entryRelIds in Hrun. rewrite Hrun. simpl.
    rewrite registerEntry_eq. destruct (hasSupportedExt entry); simpl.
    + by rewrite ensureNode_entryRelIds.
    + by rewrite app_nil_r.
  - intros [= <-]. by rewrite app_nil_r.
Qed.

Lemma forEntries_entryRelIds fuel ents b b' :
  forEntries fuel ents b = Some b' →
  entryRelIds b' = entryRelIds b ++ (toRel <$> List.filter listedEntry ents).
Proof.
  revert b. induction ents as [|entry rest IH]; intros b; simpl.
  { intros [= <-]. by rewrite app_nil_r. }
  destruct (processEntry fuel entry b) as [b1|] eqn:Hone; [|done]. simpl.
  intros Hrest. rewrite (IH _ Hrest), (processEntry_entryRelIds _ _ _ _ Hone).
  rewrite <- app_assoc. by destruct (listedEntry entry).
Qed.

(** Every listed entry has a node. *)
Lemma forEntries_entries_have_nodes fuel ents b b' :
  (∀ r, r ∈ entryRelIds b → hasNode r b = true) →
  forEntries fuel ents b = Some b' →
  ∀ r, r ∈ entryRelIds b' → hasNode r b' = true.
Proof.
  revert b. induction ents as [|entry rest IH]; intros b Hb; simpl.
  { by intros [= <-]. }
  destruct (processEntry fuel entry b) as [b1|] eqn:Hone; [|done]. simpl.
  apply IH. intros r.
  rewrite (processEntry_entryRelIds _ _ _ _ Hone), elem_of_app.
  unfold processEntry, listedEntry in *.
  destruct (Js.truthy entry); simpl in *.
  - destruct (walkEntry fuel entry b) as [w|] eqn:Hrun; [|done].
    injection Hone as <-.
    pose proof (traverse_grows _ _ _ _ _ _ _ Hrun) as (Hg & _ & _). simpl in Hg.
    intros Hr. eapply grows_hasNode; [exact Hg|].
    rewrite registerEntry_eq.
    destruct (hasSupportedExt entry); simpl in *.
    + eapply grows_hasNode; [apply grows_pushEntry|].
      destruct Hr as [Hr| ->%list_elem_of_singleton].
      * eapply grows_hasNode; [apply grows_ensureNode | by apply Hb].
      * apply ensureNode_hasNode.
    + destruct Hr as [Hr|Hr%elem_of_nil]; [by apply Hb | done].
  - injection Hone as <-. intros [Hr|Hr%elem_of_nil]; [by apply Hb | done].
Qed.

End EntryFacts.

(** X5: the [entries] array of the output holds, in the order of the
    [entries] option and with repetitions kept, the canonical ids of the
    entries that are not empty and pass the extension filter; and each of
    them is the id of a node of the output. *)
Theorem output_entries_are_listed `{PathLib} root supportedExts moduleGraph fuel ents out :
  buildDag root supportedExts moduleGraph fuel ents = Some out →
  out_entries out = toRel root <$> List.filter (listedEntry supportedExts) ents ∧
  ∀ r, r ∈ out_entries out → r ∈ n_id <$> out_nodes out.
Proof.
  intros (b & Hb & Hwf & Hn & _ & He)%buildDag_builder.
  rewrite He, Hn. split.
  - by rewrite (forEntries_entryRelIds _ _ _ _ _ _ _ Hb).
  - intros r Hr. apply hasNode_nodes; [done|].
    eapply forEntries_entries_have_nodes; [|exact Hb|exact Hr].
    intros r' Hr'. by apply elem_of_nil in Hr'.
Qed.

Lemma output_entries_are_listed_witness :
  out_entries specResult =
    @toRel Runs.posix Runs.root <$>
      List.filter (@listedEntry Runs.posix Runs.exts) ["/proj/src/main.ts"].
Proof.
  assert (Hrun : @buildDag Runs.posix Runs.root Runs.exts Runs.specGraph 4
                   ["/proj/src/main.ts"] = Some specResult) by (vm_compute; reflexivity).
  exact (proj1 (@output_entries_are_listed Runs.posix Runs.root Runs.exts Runs.specGraph 4
                  ["/proj/src/main.ts"] specResult Hrun)).
Defined.

(** ** What the walk reaches *)

Lemma depsOf_all kind info dep :
  dep ∈ depsOf kind info → dep ∈ importedIds info ++ dynamicallyImportedIds info.
Proof. destruct kind; simpl; intros Hd; apply elem_of_app; [by left | by right]. Qed.

Lemma all_depsOf info dep :
  dep ∈ importedIds info ++ dynamicallyImportedIds info →
  ∃ kind, dep ∈ depsOf kind info.
Proof. intros [Hd|Hd]%elem_of_app; [by exists static | by exists dynamic]. Qed.

Lemma reach_trans g a b c : reach g a b → reach g b c → reach g a c.
Proof. induction 1; [done|]. intros Hc. eapply reach_step; eauto. Qed.

Lemma reach_snoc g a b info dep :
  reach g a b → g !! b = Some info →
  dep ∈ importedIds info ++ dynamicallyImportedIds info →
  shouldSkip dep = false → reach g a dep.
Proof.
  intros Hab Hinfo Hdep Hskip. eapply reach_trans; [exact Hab|].
  eapply reach_step; eauto using reach_refl.
Qed.

Section WalkFacts.

Context `{PathLib}.
Variable root : string.
Variable supportedExts : gset string.
Variable moduleGraph : gmap string ModuleInfo.

Local Abbreviation toRel := (toRel root).
Local Abbreviation hasSupportedExt := (hasSupportedExt supportedExts).
Local Abbreviation ensureNode := (ensureNode root).
Local Abbreviation enter := (enter root supportedExts).
Local Abbreviation recordDep := (recordDep root supportedExts).
Local Abbreviation forDeps := (forDeps root supportedExts).
Local Abbreviation traverse := (traverse root supportedExts moduleGraph).
Local Abbreviation walkEntry := (walkEntry root supportedExts moduleGraph).
Local Abbreviation processEntry := (processEntry root supportedExts moduleGraph).
Local Abbreviation forEntries := (forEntries root supportedExts moduleGraph).
Local Abbreviation afterEnter := (afterEnter root supportedExts).
Local Abbreviation reach := (reach moduleGraph).

(** *** The induction principle, with the dependency that is handled *)

Section DepInvariant.

Variable P : Walk → Prop.

Hypothesis P_call : ∀ id info kind dep w,
  id ∈ oracleLog w → moduleGraph !! id = Some info → dep ∈ depsOf kind info →
  shouldSkip dep = false → dep ∉ visited w → P w →
  P (afterEnter dep (markVisited dep w)).

Hypothesis P_record : ∀ id info kind dep w,
  id ∈ oracleLog w → moduleGraph !! id = Some info → dep ∈ depsOf kind info →
  shouldSkip dep = false → P w →
  P (onDag (recordDep id (toRel id) kind dep) w).

Lemma forDeps_dep_invariant fuel id info kind deps :
  (∀ dep w w', P (afterEnter dep w) → traverse fuel dep w = Some w' → P w') →
  moduleGraph !! id = Some info →
  (∀ dep, dep ∈ deps → dep ∈ depsOf kind info) →
  ∀ w w', P w → id ∈ oracleLog w →
    forDeps (traverse fuel) id (toRel id) kind deps w = Some w' →
    P w' ∧ oracleLog w ⊆ oracleLog w'.
Proof.
  intros Hrec Hinfo. induction deps as [|dep rest IH]; intros Hdeps w w' HP Hid Hrun.
  { injection Hrun as <-. done. }
  rewrite forDeps_cons in Hrun.
  assert (Hdep : dep ∈ depsOf kind info) by (apply Hdeps; left).
  assert (Hrest : ∀ d, d ∈ rest → d ∈ depsOf kind info)
    by (intros d Hd; apply Hdeps; by right).
  specialize (IH Hrest).
  destruct (shouldSkip dep) eqn:Hskip; [by apply IH|].
  cbv zeta in Hrun.
  pose proof (P_record id info kind dep w Hid Hinfo Hdep Hskip HP) as HP1.
  set (w1 := onDag (recordDep id (toRel id) kind dep) w) in *.
  destruct (bool_decide_reflect (dep ∈ visited w1)) as [Hv|Hv].
  { by apply (IH w1). }
  destruct (traverse fuel dep (markVisited dep w1)) as [w2|] eqn:Hcall; [|done].
  simpl in Hrun.
  pose proof (Hrec dep _ w2 (P_call id info kind dep w1 Hid Hinfo Hdep Hskip Hv HP1) Hcall)
    as HP2.
  destruct (traverse_grows _ _ _ _ _ _ _ Hcall) as (_ & _ & Hlog).
  destruct (IH w2 w' HP2 (Hlog _ Hid) Hrun) as [HP' Hlog'].
  split; [done|]. intros x Hx. apply Hlog', Hlog, Hx.
Qed.

Lemma traverse_dep_invariant fuel id w w' :
  P (afterEnter id w) → traverse fuel id w = Some w' → P w'.
Proof.
  revert id w w'. induction fuel as [|fuel IH]; intros id w w' HP Hrun; [done|].
  rewrite traverse_S in Hrun.
  assert (Hin : id ∈ oracleLog (afterEnter id w)).
  { simpl. apply elem_of_app. right. by apply list_elem_of_singleton. }
  destruct (getModuleInfo moduleGraph id) as [info|] eqn:Hinfo.
  - destruct (forDeps (traverse fuel) id (toRel id) static (importedIds info)
                (afterEnter id w)) as [w2|] eqn:Hstatic; [|done].
    simpl in Hrun.
    destruct (forDeps_dep_invariant fuel id info static _ IH Hinfo (λ d Hd, Hd)
                _ _ HP Hin Hstatic) as [HP2 Hlog2].
    by destruct (forDeps_dep_invariant fuel id info dynamic _ IH Hinfo (λ d Hd, Hd)
                   _ _ HP2 (Hlog2 _ Hin) Hrun).
  - by injection Hrun as <-.
Qed.

End DepInvariant.

(** *** The identifiers queried are the ones reached *)

Lemma walkEntry_log_reach fuel entry b w x :
  walkEntry fuel entry b = Some w → x ∈ oracleLog w ↔ reach entry x.
Proof.
  intros Hrun. split.
  - revert x.
    apply (traverse_dep_invariant (λ v, ∀ x, x ∈ oracleLog v → reach entry x))
      with (4 := Hrun).
    + intros id info kind dep v Hid Hinfo Hdep Hskip _ Hv x. simpl.
      intros [Hx| ->%list_elem_of_singleton]%elem_of_app; [by apply Hv|].
      eapply reach_snoc; eauto using depsOf_all.
    + intros id info kind dep v _ _ _ _ Hv. exact Hv.
    + intros x. simpl. intros ->%list_elem_of_singleton. apply reach_refl.
  - destruct (walkEntry_registered _ _ _ _ _ _ _ Hrun) as [_ Hvis].
    destruct (traverse_complete _ _ _ _ _ _ _ Hrun) as [Hsub Hc].
    assert (Hentry : entry ∈ oracleLog w).
    { apply Hvis, Hsub. simpl. set_solver. }
    assert (Hc' : ∀ a, a ∈ oracleLog w → complete moduleGraph a w).
    { intros a Ha. destruct (Hc a Ha) as [Hnil|Hcomplete]; [|done].
      by apply elem_of_nil in Hnil. }
    clear Hc Hsub Hrun. intros Hreach. revert Hentry.
    induction Hreach as [|a info dep x Hinfo Hdep Hskip _ IH]; [done|].
    intros Ha. apply IH, Hvis. by eapply Hc'.
Qed.

(** *** Nodes and edges come from what is reached *)

Section Sound.

Variable R : string → Prop.

Hypothesis R_step : ∀ id info dep,
  R id → moduleGraph !! id = Some info →
  dep ∈ importedIds info ++ dynamicallyImportedIds info →
  shouldSkip dep = false → R dep.

Local Abbreviation sound := (sound root supportedExts moduleGraph R).

Lemma sound_empty : sound emptyBuilder.
Proof. split; intros x Hx; by apply elem_of_nil in Hx. Qed.

Lemma sound_pushEntry relId b : sound b → sound (pushEntry relId b).
Proof. intros []. by split. Qed.

Lemma sound_ensureNode raw b :
  R raw → hasSupportedExt raw = true → sound b → sound (ensureNode raw b).2.
Proof.
  intros HR Hext [Hn He]. destruct (hasNode (toRel raw) b) eqn:Hhas.
  { by rewrite ensureNode_present. }
  rewrite ensureNode_fresh by done. split; simpl; [|done].
  intros n [Hin| ->%list_elem_of_singleton]%elem_of_app; [by apply Hn|].
  by exists raw.
Qed.

Lemma sound_addEdge id info kind dep b :
  R id → moduleGraph !! id = Some info → dep ∈ depsOf kind info →
  shouldSkip dep = false →
  hasSupportedExt id = true → hasSupportedExt dep = true →
  sound b → sound (addEdge (toRel id) (toRel dep) kind b).
Proof.
  intros HR Hinfo Hdep Hskip Hid Hext [Hn He]. unfold addEdge.
  destruct (bool_decide _); [by split|]. split; simpl; [done|].
  intros e [Hin| ->%list_elem_of_singleton]%elem_of_app; [by apply He|].
  by exists id, info, dep.
Qed.

Lemma sound_enter id b : R id → sound b → sound (enter id (toRel id) b).
Proof.
  intros HR Hs. unfold enter.
  destruct (hasSupportedExt id) eqn:Hext; simpl; [|done].
  destruct (negb _); [by apply sound_ensureNode | done].
Qed.

Lemma sound_recordDep id info kind dep b :
  R id → moduleGraph !! id = Some info → dep ∈ depsOf kind info →
  shouldSkip dep = false →
  sound b → sound (recordDep id (toRel id) kind dep b).
Proof.
  intros HR Hinfo Hdep Hskip Hs.
  assert (HRdep : R dep).
  { apply (R_step id info dep); [done | done | by eapply depsOf_all | done]. }
  unfold recordDep.
  destruct (hasSupportedExt id) eqn:Hid, (hasSupportedExt dep) eqn:Hext; simpl; try done.
  - eapply sound_addEdge; eauto.
    destruct (negb _); [by apply sound_ensureNode | done].
  - destruct (negb _); [by apply sound_ensureNode | done].
Qed.

Lemma walkEntry_sound fuel entry b w :
  R entry → sound b → walkEntry fuel entry b = Some w → sound (dag w).
Proof.
  intros HR Hs Hrun.
  enough (HP : sound (dag w) ∧ ∀ x, x ∈ oracleLog w → R x) by apply HP.
  apply (traverse_dep_invariant (λ v, sound (dag v) ∧ ∀ x, x ∈ oracleLog v → R x))
    with (4 := Hrun).
  - intros id info kind dep v Hid Hinfo Hdep Hskip _ [Hv Hlog].
    assert (HRdep : R dep).
    { apply (R_step id info dep); [by apply Hlog | done | by eapply depsOf_all | done]. }
    split; simpl; [by apply sound_enter|].
    intros x [Hx| ->%list_elem_of_singleton]%elem_of_app; [by apply Hlog | done].
  - intros id info kind dep v Hid Hinfo Hdep Hskip [Hv Hlog].
    split; simpl; [|done]. eapply sound_recordDep; eauto.
  - split; simpl.
    + apply sound_enter; [done|]. rewrite registerEntry_eq.
      destruct (hasSupportedExt entry) eqn:Hext; [|done].
      by apply sound_pushEntry, sound_ensureNode.
    + by intros x ->%list_elem_of_singleton.
Qed.

Lemma forEntries_sound fuel ents b b' :
  (∀ entry, entry ∈ ents → entry ≠ "" → R entry) →
  sound b → forEntries fuel ents b = Some b' → sound b'.
Proof.
  revert b. induction ents as [|entry rest IH]; intros b Hents Hs; simpl.
  { by intros [= <-]. }
  destruct (processEntry fuel entry b) as [b1|] eqn:Hone; [|done]. simpl.
  apply IH; [intros e He; apply Hents; by right|].
  unfold processEntry in Hone.
  destruct (Js.truthy entry) eqn:Ht; simpl in Hone; [|by injection Hone as <-].
  destruct (walkEntry fuel entry b) as [w|] eqn:Hrun; [|done].
  injection Hone as <-. eapply walkEntry_sound; [|done|done].
  apply Hents; [by left|]. by intros ->.
Qed.

End Sound.

(** *** What is reached gets its node *)

Lemma forEntries_reached fuel ents b b' entry raw :
  wf b → forEntries fuel ents b = Some b' →
  entry ∈ ents → entry ≠ "" → reach entry raw → hasSupportedExt raw = true →
  hasNode (toRel raw) b' = true.
Proof.
  revert b. induction ents as [|e rest IH]; intros b Hwf; simpl.
  { intros _ Hin. by apply elem_of_nil in Hin. }
  destruct (processEntry fuel e b) as [b1|] eqn:Hone; [|done]. simpl.
  intros Hrest Hin Hne Hreach Hext.
  destruct (processEntry_wf _ _ _ _ _ _ _ Hwf Hone) as [Hwf1 _].
  destruct (decide (e = entry)) as [->|Hdiff].
  - destruct (forEntries_wf _ _ _ _ _ _ _ Hwf1 Hrest) as [_ Hg].
    eapply grows_hasNode; [exact Hg|].
    unfold processEntry in Hone.
    destruct (Js.truthy entry) eqn:Ht; simpl in Hone.
    + destruct (walkEntry fuel entry b) as [w|] eqn:Hrun; [|done].
      injection Hone as <-.
      destruct (walkEntry_registered _ _ _ _ _ _ _ Hrun) as [Hreg _].
      apply Hreg; [|done]. by apply (walkEntry_log_reach _ _ _ _ _ Hrun).
    + by apply JsFacts.truthy_false in Ht.
  - apply elem_of_cons in Hin as [->|Hin]; [done|]. by eapply IH.
Qed.

(** *** Every import that is reached is recorded *)

Local Abbreviation edgesDone := (edgesDone root supportedExts moduleGraph).

Lemma edgesDone_grows x b b' : grows b b' → edgesDone x b → edgesDone x b'.
Proof.
  intros Hg Hd Hext info kind dep Hinfo Hdep Hskip Hdext.
  destruct (Hd Hext info kind dep Hinfo Hdep Hskip Hdext) as (e & He & Hkey).
  exists e. split; [|done]. eapply elem_of_prefix; [exact He | apply Hg].
Qed.

Lemma addEdge_recorded fromRel toRel' kind b :
  wf b → ∃ e, e ∈ edges (addEdge fromRel toRel' kind b) ∧
              keyOf e = edgeKey fromRel toRel' kind.
Proof.
  intros Hwf. unfold addEdge.
  destruct (bool_decide_reflect (edgeKey fromRel toRel' kind ∈ edgeKeySet b)) as [Hin|Hin].
  - by apply (wf_keys b Hwf) in Hin.
  - eexists. split; [simpl; apply elem_of_app; right; by apply list_elem_of_singleton|done].
Qed.

Lemma recordDep_recorded id kind dep b :
  wf b → hasSupportedExt id = true → hasSupportedExt dep = true →
  ∃ e, e ∈ edges (recordDep id (toRel id) kind dep b) ∧
       keyOf e = edgeKey (toRel id) (toRel dep) kind.
Proof.
  intros Hwf Hid Hext. unfold recordDep. rewrite Hid, Hext. simpl.
  apply addEdge_recorded. destruct (negb _); [by apply wf_ensureNode | done].
Qed.

Lemma forDeps_recorded fuel id kind deps :
  (∀ dep w w', wf (dag w) → traverse fuel dep w = Some w' →
     ∀ x, x ∈ oracleLog w' → x ∈ oracleLog w ∨ edgesDone x (dag w')) →
  ∀ w w', wf (dag w) →
    forDeps (traverse fuel) id (toRel id) kind deps w = Some w' →
    wf (dag w') ∧ grows (dag w) (dag w') ∧
    (hasSupportedExt id = true →
     ∀ dep, dep ∈ deps → shouldSkip dep = false → hasSupportedExt dep = true →
       ∃ e, e ∈ edges (dag w') ∧ keyOf e = edgeKey (toRel id) (toRel dep) kind) ∧
    (∀ x, x ∈ oracleLog w' → x ∈ oracleLog w ∨ edgesDone x (dag w')).
Proof.
  intros Hrec. induction deps as [|dep rest IH]; intros w w' Hwf Hrun.
  { injection Hrun as <-. split_and!; [done | apply grows_refl | | by left].
    intros _ dep Hdep. by apply elem_of_nil in Hdep. }
  rewrite forDeps_cons in Hrun.
  destruct (shouldSkip dep) eqn:Hskip.
  { destruct (IH _ _ Hwf Hrun) as (Hwf' & Hg & Hdeps & Hlog). split_and!; try done.
    intros Hid d [->|Hd]%elem_of_cons; [congruence | by apply Hdeps]. }
  cbv zeta in Hrun. set (w1 := onDag (recordDep id (toRel id) kind dep) w) in *.
  assert (Hwf1 : wf (dag w1)) by (by apply wf_recordDep).
  assert (Hg1 : grows (dag w) (dag w1)) by apply grows_recordDep.
  assert (Hhere : ∀ v, grows (dag w1) (dag v) →
            hasSupportedExt id = true → hasSupportedExt dep = true →
            ∃ e, e ∈ edges (dag v) ∧ keyOf e = edgeKey (toRel id) (toRel dep) kind).
  { intros v Hgv Hid Hext.
    destruct (recordDep_recorded id kind dep (dag w) Hwf Hid Hext) as (e & He & Hkey).
    exists e. split; [|done]. eapply elem_of_prefix; [exact He | apply Hgv]. }
  destruct (bool_decide_reflect (dep ∈ visited w1)) as [Hin|Hin].
  { destruct (IH _ _ Hwf1 Hrun) as (Hwf' & Hg & Hdeps & Hlog).
    split_and!; [done | by eapply grows_trans | | done].
    intros Hid d [->|Hd]%elem_of_cons; [intros _ Hext; by apply Hhere | by apply Hdeps]. }
  destruct (traverse fuel dep (markVisited dep w1)) as [w2|] eqn:Hcall; [|done].
  simpl in Hrun.
  pose proof (traverse_wf _ _ _ _ _ (markVisited dep w1) _ Hwf1 Hcall) as Hwf2.
  destruct (traverse_grows _ _ _ _ _ _ _ Hcall) as (Hg2 & _ & _). simpl in Hg2.
  pose proof (Hrec dep (markVisited dep w1) w2 Hwf1 Hcall) as Hlog2.
  destruct (IH _ _ Hwf2 Hrun) as (Hwf' & Hg & Hdeps & Hlog).
  split_and!.
  - done.
  - eapply grows_trans; [exact Hg1|]. by eapply grows_trans.
  - intros Hid d [->|Hd]%elem_of_cons; [intros _ Hext | by apply Hdeps].
    apply Hhere; [by eapply grows_trans | done | done].
  - intros x Hx. destruct (Hlog x Hx) as [Hx2|Hd]; [|by right].
    destruct (Hlog2 x Hx2) as [Hx1|Hd]; [by left|].
    right. by eapply edgesDone_grows.
Qed.

Lemma traverse_recorded fuel id w w' :
  wf (dag w) → traverse fuel id w = Some w' →
  ∀ x, x ∈ oracleLog w' → x ∈ oracleLog w ∨ edgesDone x (dag w').
Proof.
  revert id w w'. induction fuel as [|fuel IH]; intros id w w' Hwf Hrun; [done|].
  rewrite traverse_S in Hrun.
  assert (Hwf0 : wf (dag (afterEnter id w))) by (by apply wf_enter).
  destruct (getModuleInfo moduleGraph id) as [info|] eqn:Hinfo.
  - destruct (forDeps (traverse fuel) id (toRel id) static (importedIds info)
                (afterEnter id w)) as [w2|] eqn:Hstatic; [|done].
    simpl in Hrun.
    destruct (forDeps_recorded _ _ _ _ IH _ _ Hwf0 Hstatic) as (Hwf2 & Hg2 & Hdeps2 & Hlog2).
    destruct (forDeps_recorded _ _ _ _ IH _ _ Hwf2 Hrun) as (Hwf' & Hg & Hdeps & Hlog).
    intros x Hx. destruct (Hlog x Hx) as [Hx2|Hd]; [|by right].
    destruct (Hlog2 x Hx2) as [Hx1|Hd]; [|right; by eapply edgesDone_grows].
    simpl in Hx1. apply elem_of_app in Hx1 as [Hx1| ->%list_elem_of_singleton]; [by left|].
    right. intros Hid info' kind dep Hinfo' Hdep Hskip Hext.
    unfold getModuleInfo in Hinfo. rewrite Hinfo in Hinfo'. injection Hinfo' as <-.
    destruct kind; simpl in Hdep.
    + destruct (Hdeps2 Hid dep Hdep Hskip Hext) as (e & He & Hkey).
      exists e. split; [|done]. eapply elem_of_prefix; [exact He | apply Hg].
    + by apply Hdeps.
  - injection Hrun as <-. simpl.
    intros x [Hx| ->%list_elem_of_singleton]%elem_of_app; [by left|].
    right. intros _ info kind dep Hinfo'. unfold getModuleInfo in Hinfo. congruence.
Qed.

Lemma forEntries_recorded fuel ents b b' entry id :
  wf b → forEntries fuel ents b = Some b' →
  entry ∈ ents → entry ≠ "" → reach entry id → edgesDone id b'.
Proof.
  revert b. induction ents as [|e rest IH]; intros b Hwf; simpl.
  { intros _ Hin. by apply elem_of_nil in Hin. }
  destruct (processEntry fuel e b) as [b1|] eqn:Hone; [|done]. simpl.
  intros Hrest Hin Hne Hreach.
  destruct (processEntry_wf _ _ _ _ _ _ _ Hwf Hone) as [Hwf1 _].
  destruct (decide (e = entry)) as [->|Hdiff].
  - destruct (forEntries_wf _ _ _ _ _ _ _ Hwf1 Hrest) as [_ Hg].
    eapply edgesDone_grows; [exact Hg|].
    unfold processEntry in Hone.
    destruct (Js.truthy entry) eqn:Ht; simpl in Hone.
    + destruct (walkEntry fuel entry b) as [w|] eqn:Hrun; [|done].
      injection Hone as <-.
      assert (Hid : id ∈ oracleLog w) by (by apply (walkEntry_log_reach _ _ _ _ _ Hrun)).
      assert (Hwf0 : wf (registerEntry root supportedExts entry b))
        by (by apply wf_registerEntry).
      destruct (traverse_recorded fuel entry
                  (markVisited entry
                     {| dag := registerEntry root supportedExts entry b;
                        visited := ∅; oracleLog := [] |}) w Hwf0 Hrun id Hid)
        as [Hnil|Hd]; [by apply elem_of_nil in Hnil | done].
    + by apply JsFacts.truthy_false in Ht.
  - apply elem_of_cons in Hin as [->|Hin]; [done|]. by eapply IH.
Qed.

End WalkFacts.

(** X6: the walk of an entry is a search of the module graph: the
    identifiers passed to the oracle are exactly the entry and the
    identifiers reached from it along dependencies, static or dynamic, that
    the skip policy does not match. *)
Theorem walk_queries_reachable `{PathLib} root supportedExts moduleGraph fuel entry b w :
  walkEntry root supportedExts moduleGraph fuel entry b = Some w →
  ∀ x, x ∈ oracleLog w ↔ reach moduleGraph entry x.
Proof. intros Hrun x. by eapply walkEntry_log_reach. Qed.

Lemma walk_queries_reachable_witness :
  ∃ w, @walkEntry Runs.posix Runs.root Runs.exts Runs.specGraph 4 "/proj/src/main.ts"
         emptyBuilder = Some w ∧ "/proj/src/b.ts" ∈ oracleLog w.
Proof.
  destruct (walkEntry_terminates (H:=Runs.posix) Runs.root Runs.exts Runs.specGraph
              "/proj/src/main.ts" emptyBuilder) as [w Hw].
  exists w. split; [exact Hw|].
  apply (@walk_queries_reachable Runs.posix Runs.root Runs.exts Runs.specGraph _ _ _ _ Hw).
  apply (reach_step _ "/proj/src/main.ts"
           (Runs.info ["/proj/src/a.ts"] ["/proj/src/b.ts"]) "/proj/src/b.ts").
  - vm_compute. reflexivity.
  - simpl. right. left.
  - vm_compute. reflexivity.
  - apply reach_refl.
Defined.

(** ** The output against the module graph *)

Lemma reached_step moduleGraph ents id info dep :
  reached moduleGraph ents id → moduleGraph !! id = Some info →
  dep ∈ importedIds info ++ dynamicallyImportedIds info →
  shouldSkip dep = false → reached moduleGraph ents dep.
Proof.
  intros (entry & Hin & Hne & Hreach) Hinfo Hdep Hskip.
  exists entry. split_and!; [done | done |]. by eapply reach_snoc.
Qed.

Lemma buildDag_sound `{PathLib} root supportedExts moduleGraph fuel ents out :
  buildDag root supportedExts moduleGraph fuel ents = Some out →
  ∃ b, wf b ∧ out_nodes out = nodes b ∧ out_edges out = edges b ∧
       forEntries root supportedExts moduleGraph fuel ents emptyBuilder = Some b ∧
       sound root supportedExts moduleGraph (reached moduleGraph ents) b.
Proof.
  intros (b & Hb & Hwf & Hn & He & _)%buildDag_builder.
  exists b. split_and!; try done.
  eapply forEntries_sound; [apply reached_step| |apply sound_empty|exact Hb].
  intros entry Hin Hne. exists entry. split_and!; [done | done | apply reach_refl].
Qed.

(** X7: every edge of the output is an import of the module graph: its
    source is the canonical form of an identifier reached from a non-empty
    entry, its target the canonical form of one of the dependencies of that
    identifier, listed under the kind of the edge (static or dynamic) and
    not skipped, and both pass the extension filter. *)
Theorem output_edges_are_imports `{PathLib} root supportedExts moduleGraph fuel ents out e :
  buildDag root supportedExts moduleGraph fuel ents = Some out →
  e ∈ out_edges out →
  ∃ id info dep,
    reached moduleGraph ents id ∧
    moduleGraph !! id = Some info ∧
    dep ∈ depsOf (e_kind e) info ∧
    shouldSkip dep = false ∧
    hasSupportedExt supportedExts id = true ∧
    hasSupportedExt supportedExts dep = true ∧
    e_source e = toRel root id ∧ e_target e = toRel root dep.
Proof.
  intros (b & _ & _ & He & _ & [_ Hedges])%buildDag_sound Hin.
  rewrite He in Hin. exact (Hedges e Hin).
Qed.

Lemma output_edges_are_imports_witness :
  ∃ id info dep,
    reached Runs.specGraph ["/proj/src/main.ts"] id ∧
    Runs.specGraph !! id = Some info ∧
    dep ∈ depsOf dynamic info ∧
    @toRel Runs.posix Runs.root id = "src/main.ts" ∧
    @toRel Runs.posix Runs.root dep = "src/b.ts".
Proof.
  assert (Hrun : @buildDag Runs.posix Runs.root Runs.exts Runs.specGraph 4
                   ["/proj/src/main.ts"] = Some specResult) by (vm_compute; reflexivity).
  destruct (@output_edges_are_imports Runs.posix Runs.root Runs.exts Runs.specGraph 4
              ["/proj/src/main.ts"] specResult
              {| e_source := "src/main.ts"; e_target := "src/b.ts"; e_kind := dynamic |} Hrun)
    as (id & info & dep & Hr & Hinfo & Hdep & _ & _ & _ & Hs & Ht).
  { simpl. right. right. left. }
  exists id, info, dep. split; [exact Hr|]. split; [exact Hinfo|]. split; [exact Hdep|].
  split; [symmetry; exact Hs | symmetry; exact Ht].
Defined.

(** X8: the node ids of the output are exactly the canonical forms of the
    identifiers that are reached from a non-empty entry and pass the
    extension filter. *)
Theorem output_nodes_are_reached `{PathLib} root supportedExts moduleGraph fuel ents out r :
  buildDag root supportedExts moduleGraph fuel ents = Some out →
  r ∈ n_id <$> out_nodes out ↔
  ∃ raw, reached moduleGraph ents raw ∧
         hasSupportedExt supportedExts raw = true ∧ r = toRel root raw.
Proof.
  intros (b & Hwf & Hn & _ & Hb & [Hnodes _])%buildDag_sound. rewrite Hn. split.
  - intros (n & -> & Hin)%list_elem_of_fmap. exact (Hnodes n Hin).
  - intros (raw & (entry & Hin & Hne & Hreach) & Hext & ->).
    apply hasNode_nodes; [done|].
    by eapply forEntries_reached; [apply wf_empty|exact Hb|..].
Qed.

Lemma output_nodes_are_reached_witness :
  "src/b.ts" ∈ n_id <$> out_nodes specResult.
Proof.
  assert (Hrun : @buildDag Runs.posix Runs.root Runs.exts Runs.specGraph 4
                   ["/proj/src/main.ts"] = Some specResult) by (vm_compute; reflexivity).
  apply (@output_nodes_are_reached Runs.posix Runs.root Runs.exts Runs.specGraph 4
           ["/proj/src/main.ts"] specResult "src/b.ts" Hrun).
  exists "/proj/src/b.ts". split; [|split; vm_compute; reflexivity].
  exists "/proj/src/main.ts". split; [left|]. split; [discriminate|].
  apply (reach_step _ "/proj/src/main.ts"
           (Runs.info ["/proj/src/a.ts"] ["/proj/src/b.ts"]) "/proj/src/b.ts").
  - vm_compute. reflexivity.
  - simpl. right. left.
  - vm_compute. reflexivity.
  - apply reach_refl.
Defined.

(** ** The key of the edge set *)

Lemma app_sep_inj c a a' r r' :
  Js.includes (String c "") a = false → Js.includes (String c "") a' = false →
  a +:+ String c r = a' +:+ String c r' → a = a' ∧ r = r'.
Proof.
  revert a'. induction a as [|x a IH]; intros [|y a'].
  - intros _ _ [= ->]. done.
  - intros _ Hy [= <- _]. by rewrite QueryFacts.includes_char_cons, Ascii.eqb_refl in Hy.
  - intros Hx _ [= -> _]. by rewrite QueryFacts.includes_char_cons, Ascii.eqb_refl in Hx.
  - rewrite !QueryFacts.includes_char_cons, !orb_false_iff.
    intros [_ Ha] [_ Ha'] [= -> Heq].
    destruct (IH a' Ha Ha' Heq) as [-> ->]. done.
Qed.

(** X9: on canonical ids without the character [|] the key of the edge set
    is injective: two edges with the same key have the same source, target
    and kind. *)
Theorem edgeKey_injective s t k s' t' k' :
  Js.includes "|" s = false → Js.includes "|" t = false →
  Js.includes "|" s' = false → Js.includes "|" t' = false →
  edgeKey s t k = edgeKey s' t' k' →
  s = s' ∧ t = t' ∧ k = k'.
Proof.
  intros Hs Ht Hs' Ht' Hkey. unfold edgeKey in Hkey.
  change (s +:+ String "|" (t +:+ String "|" (kindName k)) =
          s' +:+ String "|" (t' +:+ String "|" (kindName k'))) in Hkey.
  apply app_sep_inj in Hkey as [-> Hkey]; [|done|done].
  apply app_sep_inj in Hkey as [-> Hkey]; [|done|done].
  split_and!; [done | done |]. by destruct k, k'.
Qed.

Lemma edgeKey_injective_witness :
  edgeKey "src/a.ts" "src/b.ts" static = edgeKey "src/a.ts" "src/b.ts" static ∧
  static = static.
Proof.
  split; [reflexivity|].
  exact (proj2 (proj2 (edgeKey_injective "src/a.ts" "src/b.ts" static
                         "src/a.ts" "src/b.ts" static
                         eq_refl eq_refl eq_refl eq_refl eq_refl))).
Defined.

(** X10: every import that the walk reaches is recorded: for an identifier
    reached from a non-empty entry and a dependency of it that is not
    skipped, both passing the extension filter, the key of their edge is the
    key of an edge of the output; and when no node id of the output holds
    the character [|], that edge itself, with the kind of the import, is in
    the output. *)
Theorem imports_are_recorded `{PathLib} root supportedExts moduleGraph fuel ents out
    id info kind dep :
  buildDag root supportedExts moduleGraph fuel ents = Some out →
  reached moduleGraph ents id →
  moduleGraph !! id = Some info →
  dep ∈ depsOf kind info →
  shouldSkip dep = false →
  hasSupportedExt supportedExts id = true →
  hasSupportedExt supportedExts dep = true →
  (∃ e, e ∈ out_edges out ∧ keyOf e = edgeKey (toRel root id) (toRel root dep) kind) ∧
  ((∀ n, n ∈ out_nodes out → Js.includes "|" (n_id n) = false) →
   {| e_source := toRel root id; e_target := toRel root dep; e_kind := kind |}
     ∈ out_edges out).
Proof.
  intros Hrun (entry & Hin & Hne & Hreach) Hinfo Hdep Hskip Hid Hext.
  pose proof Hrun as (b & Hwf & Hn & He & Hb & _)%buildDag_sound.
  assert (Hrec : ∃ e, e ∈ out_edges out ∧
                      keyOf e = edgeKey (toRel root id) (toRel root dep) kind).
  { rewrite He.
    by eapply (forEntries_recorded _ _ _ _ _ _ _ _ _ wf_empty Hb Hin Hne Hreach). }
  split; [exact Hrec|]. intros Hbar.
  destruct Hrec as (e & Hine & Hkey).
  assert (Hnode : ∀ r, r ∈ n_id <$> out_nodes out → Js.includes "|" r = false).
  { intros r (n & -> & Hn')%list_elem_of_fmap. by apply Hbar. }
  assert (Hreached : ∀ raw, reach moduleGraph entry raw →
                            hasSupportedExt supportedExts raw = true →
                            toRel root raw ∈ n_id <$> out_nodes out).
  { intros raw Hr Hx. rewrite Hn. apply hasNode_nodes; [done|].
    by eapply forEntries_reached; [apply wf_empty|exact Hb|..]. }
  pose proof (forEntries_provenance root supportedExts moduleGraph
                (λ _, True) (λ _ _, I) fuel ents emptyBuilder b
                (λ _ _, I) wf_empty (prov_empty root supportedExts _) Hb) as [_ Hprov].
  rewrite He in Hine. destruct (Hprov e Hine) as (Hsrc & Htgt & _).
  rewrite <- Hn in Hsrc, Htgt. rewrite <- He in Hine.
  unfold keyOf in Hkey.
  apply edgeKey_injective in Hkey as (Hs & Ht & Hk).
  - destruct e as [s t k]. simpl in *. by subst.
  - by apply Hnode.
  - by apply Hnode.
  - by apply Hnode, Hreached.
  - apply Hnode, Hreached; [|done]. eapply reach_snoc; eauto using depsOf_all.
Qed.

Lemma imports_are_recorded_witness :
  {| e_source := @toRel Runs.posix Runs.root "/proj/src/a.ts";
     e_target := @toRel Runs.posix Runs.root "/proj/src/main.ts";
     e_kind := static |} ∈ out_edges specResult.
Proof.
  assert (Hrun : @buildDag Runs.posix Runs.root Runs.exts Runs.specGraph 4
                   ["/proj/src/main.ts"] = Some specResult) by (vm_compute; reflexivity).
  apply (@imports_are_recorded Runs.posix Runs.root Runs.exts Runs.specGraph 4
           ["/proj/src/main.ts"] specResult "/proj/src/a.ts"
           (Runs.info ["/proj/src/main.ts"] []) static "/proj/src/main.ts" Hrun).
  - exists "/proj/src/main.ts". split; [left|]. split; [discriminate|].
    apply (reach_step _ "/proj/src/main.ts"
             (Runs.info ["/proj/src/a.ts"] ["/proj/src/b.ts"]) "/proj/src/a.ts").
    + vm_compute. reflexivity.
    + simpl. left.
    + vm_compute. reflexivity.
    + apply reach_refl.
  - vm_compute. reflexivity.
  - simpl. left.
  - vm_compute. reflexivity.
  - vm_compute. reflexivity.
  - vm_compute. reflexivity.
  - intros n Hn. simpl in Hn.
    repeat (apply elem_of_cons in Hn as [->|Hn]; [vm_compute; reflexivity|]).
    by apply elem_of_nil in Hn.
Defined.

(** ** Entries that are already reached *)

Lemma prefix_NoDup_eq {A B} (f : A → B) (l l' : list A) :
  l `prefix_of` l' → NoDup (f <$> l') →
  (∀ x, x ∈ l' → f x ∈ f <$> l) → l' = l.
Proof.
  intros [k ->] Hnd Hin. destruct k as [|x k]; [by rewrite app_nil_r|].
  rewrite fmap_app in Hnd. apply NoDup_app in Hnd as (_ & Hdisj & _).
  destruct (Hdisj (f x)).
  - apply Hin, elem_of_app. right. left.
  - simpl. left.
Qed.

(** X11: an entry that is empty, or repeated, or already reached from the
    entries before it, adds no node and no edge: the run over the entries
    followed by it has the same node and edge sequences as the run over the
    entries alone. *)
Theorem reached_entry_adds_nothing `{PathLib} root supportedExts moduleGraph fuel
    ents entry out out' :
  buildDag root supportedExts moduleGraph fuel ents = Some out →
  buildDag root supportedExts moduleGraph fuel (ents ++ [entry]) = Some out' →
  entry = "" ∨ reached moduleGraph ents entry →
  out_nodes out' = out_nodes out ∧ out_edges out' = out_edges out.
Proof.
  intros (b & Hb & Hwf & Hn & He & _)%buildDag_builder Hrun' Hentry.
  pose proof Hrun' as (b' & Hwf' & Hn' & He' & Hb' & [Hnodes Hedges])%buildDag_sound.
  rewrite Hn, He, Hn', He'.
  assert (Hg : grows b b').
  { rewrite forEntries_app, Hb in Hb'.
    change (forEntries root supportedExts moduleGraph fuel [entry] b = Some b') in Hb'.
    by destruct (forEntries_wf _ _ _ _ _ _ _ Hwf Hb'). }
  assert (Hsame : ∀ x, reached moduleGraph (ents ++ [entry]) x → reached moduleGraph ents x).
  { intros x (e & [Hin| ->%list_elem_of_singleton]%elem_of_app & Hne & Hreach).
    - by exists e.
    - destruct Hentry as [->|(e & Hin & Hne' & Hreach')]; [done|].
      exists e. split_and!; [done | done | by eapply reach_trans]. }
  split.
  - apply (prefix_NoDup_eq n_id); [apply Hg | apply Hwf' |].
    intros n Hin. destruct (Hnodes n Hin) as (raw & Hr & Hext & ->).
    destruct (Hsame raw Hr) as (e & Hine & Hne & Hreach).
    apply hasNode_nodes; [done|].
    by eapply forEntries_reached; [apply wf_empty|exact Hb|..].
  - apply (prefix_NoDup_eq keyOf); [apply Hg | apply Hwf' |].
    intros e Hin.
    destruct (Hedges e Hin) as (id & info & dep & Hr & Hinfo & Hdep & Hskip & Hid & Hext
                                & Hs & Ht).
    destruct (Hsame id Hr) as (e0 & Hine & Hne & Hreach).
    destruct (forEntries_recorded _ _ _ _ _ _ _ _ _ wf_empty Hb Hine Hne Hreach
                Hid info (e_kind e) dep Hinfo Hdep Hskip Hext) as (e1 & Hin1 & Hkey).
    apply list_elem_of_fmap. exists e1. split; [|done].
    unfold keyOf at 1. by rewrite Hs, Ht.
Qed.

Lemma reached_entry_adds_nothing_witness :
  ∃ out', @buildDag Runs.posix Runs.root Runs.exts Runs.specGraph 4
            (["/proj/src/main.ts"] ++ ["/proj/src/a.ts"]) = Some out' ∧
          out_nodes out' = out_nodes specResult ∧ out_edges out' = out_edges specResult.
Proof.
  assert (Hrun : @buildDag Runs.posix Runs.root Runs.exts Runs.specGraph 4
                   ["/proj/src/main.ts"] = Some specResult) by (vm_compute; reflexivity).
  destruct (@buildDag Runs.posix Runs.root Runs.exts Runs.specGraph 4
              (["/proj/src/main.ts"] ++ ["/proj/src/a.ts"])) as [out'|] eqn:Hrun'.
  - exists out'. split; [reflexivity|].
    apply (@reached_entry_adds_nothing Runs.posix Runs.root Runs.exts Runs.specGraph 4
             ["/proj/src/main.ts"] "/proj/src/a.ts" specResult out' Hrun Hrun').
    right. exists "/proj/src/main.ts". split; [left|]. split; [discriminate|].
    apply (reach_step _ "/proj/src/main.ts"
             (Runs.info ["/proj/src/a.ts"] ["/proj/src/b.ts"]) "/proj/src/a.ts").
    + vm_compute. reflexivity.
    + simpl. left.
    + vm_compute. reflexivity.
    + apply reach_refl.
  - vm_compute in Hrun'. discriminate Hrun'.
Defined.

(** ** The tree builder *)

Module TreeFacts.

Import TreePlugin.

Lemma postorderAll_app ts ts' :
  postorderAll (ts ++ ts') = postorderAll ts ++ postorderAll ts'.
Proof. induction ts as [|t ts IH]; simpl; [done|]. by rewrite IH, app_assoc. Qed.

Lemma postorder_unfold id deps order :
  postorder (mkNode id deps order) = postorderAll deps ++ [(id, order)].
Proof. reflexivity. Qed.

Lemma rejected_false id st :
  rejected id st = false ↔
  id ≠ "" ∧ (id ∉ visited st) ∧ Js.includes "node_modules" id = false.
Proof.
  unfold rejected. rewrite !orb_false_iff, negb_false_iff, bool_decide_eq_false.
  split.
  - intros [[Ht Hv] Hn]. split_and!; [|done|done]. by intros ->.
  - intros (Hne & Hv & Hn). split_and!; [|done|done].
    destruct id; [done | reflexivity].
Qed.

Section Collect.

Variable g : gmap string ModuleInfo.

Local Abbreviation collected := (collected g).
Local Abbreviation returns := (returns g).

Lemma collected_refl st : collected st st [].
Proof.
  split; simpl.
  - done.
  - done.
  - lia.
  - apply NoDup_nil_2.
  - intros x. rewrite elem_of_nil. set_solver.
  - intros x Hx. by apply elem_of_nil in Hx.
Qed.

Lemma collected_app st1 st2 st3 l1 l2 :
  collected st1 st2 l1 → collected st2 st3 l2 → collected st1 st3 (l1 ++ l2).
Proof.
  intros [Hv1 Ho1 Hc1 Hn1 Hi1 Hk1] [Hv2 Ho2 Hc2 Hn2 Hi2 Hk2]. split.
  - set_solver.
  - rewrite fmap_app, length_app, seq_app, Ho1, Ho2, Hc1. done.
  - rewrite length_app. lia.
  - rewrite fmap_app. apply NoDup_app. split_and!; [done| |done].
    intros x Hx1 Hx2. apply Hi1 in Hx1. apply Hi2 in Hx2. tauto.
  - intros x. rewrite fmap_app, elem_of_app, Hi1, Hi2. split.
    + intros [[? ?]|[? ?]]; split; set_solver.
    + intros [Hx3 Hx1]. destruct (decide (x ∈ visited st2)); [by left | by right].
  - intros x. rewrite fmap_app, elem_of_app. intros [Hx|Hx]; auto.
Qed.

Lemma forEachDep_collected rec deps depsNodes st depsNodes' st' :
  (∀ dep st r st', rec dep st = Some (r, st') → returns dep st r st') →
  forEachDep rec deps depsNodes st = Some (depsNodes', st') →
  ∃ new, depsNodes' = depsNodes ++ new ∧ collected st st' (postorderAll new).
Proof.
  intros Hrec. revert depsNodes st.
  induction deps as [|dep rest IH]; intros depsNodes st; simpl.
  { intros [= <- <-]. exists []. split; [by rewrite app_nil_r | apply collected_refl]. }
  destruct (rec dep st) as [[node st1]|] eqn:Hcall; [|done]. simpl.
  intros Hrun. apply Hrec in Hcall.
  destruct (IH _ _ Hrun) as (new & -> & Hcol).
  destruct node as [n|]; simpl in Hcall.
  - destruct Hcall as (_ & _ & _ & Hn). exists (n :: new).
    split; [by rewrite <- app_assoc|]. simpl. by eapply collected_app.
  - destruct Hcall as [-> _]. by exists new.
Qed.

Lemma collectDeps_returns fuel id st r st' :
  collectDeps g fuel id st = Some (r, st') → returns id st r st'.
Proof.
  revert id st r st'. induction fuel as [|fuel IH]; intros id st r st'; [done|].
  simpl. destruct (rejected id st) eqn:Hrej.
  { by intros [= <- <-]. }
  pose proof Hrej as (Hne & Hfresh & Hclean)%rejected_false.
  set (st1 := {| visited := {[id]} ∪ visited st; counter := counter st |}).
  assert (Hlast : ∀ st3 l,
    collected st1 st3 l →
    collected st {| visited := visited st3; counter := S (counter st3) |}
      (l ++ [(id, counter st3)])).
  { intros st3 l [Hv Ho Hc Hn Hi Hk]. simpl in *. split; simpl.
    - set_solver.
    - rewrite fmap_app, length_app, Ho, Hc. simpl.
      by rewrite Nat.add_1_r, seq_S.
    - rewrite length_app. simpl. lia.
    - rewrite fmap_app. apply NoDup_app. split_and!; [done| |apply NoDup_singleton].
      intros x Hx ->%list_elem_of_singleton. apply Hi in Hx. set_solver.
    - intros x. rewrite fmap_app, elem_of_app, Hi. simpl.
      rewrite list_elem_of_singleton. split.
      + intros [[? ?]| ->]; set_solver.
      + intros [Hx3 Hx]. destruct (decide (x = id)) as [->|Hdiff]; [by right|].
        left. set_solver.
    - intros x. rewrite fmap_app, elem_of_app. simpl.
      rewrite list_elem_of_singleton. intros [Hx| ->]; auto. }
  destruct (g !! id) as [info|].
  - destruct (forEachDep _ (importedIds info) [] st1) as [[d1 st2]|] eqn:H1; [|done].
    simpl.
    destruct (forEachDep _ (dynamicallyImportedIds info) d1 st2) as [[d2 st3]|] eqn:H2;
      [|done].
    simpl. intros [= <- <-].
    destruct (forEachDep_collected _ _ _ _ _ _ IH H1) as (new1 & -> & Hc1).
    destruct (forEachDep_collected _ _ _ _ _ _ IH H2) as (new2 & -> & Hc2).
    unfold returns. split_and!; [done | done | done |].
    rewrite postorder_unfold, postorderAll_app. apply Hlast.
    by eapply collected_app.
  - intros [= <- <-]. unfold returns. split_and!; [done | done | done |].
    rewrite postorder_unfold. apply (Hlast st1 []), collected_refl.
Qed.

Lemma collectDeps_S fuel id st :
  collectDeps g (S fuel) id st =
    if rejected id st then Some (None, st)
    else
      let st1 := {| visited := {[id]} ∪ visited st; counter := counter st |} in
      match g !! id with
      | None =>
          Some (Some (mkNode id [] (counter st1)),
                {| visited := visited st1; counter := S (counter st1) |})
      | Some info =>
          '(d1, st2) ← forEachDep (collectDeps g fuel) (importedIds info) [] st1;
          '(d2, st3) ← forEachDep (collectDeps g fuel) (dynamicallyImportedIds info) d1 st2;
          Some (Some (mkNode id d2 (counter st3)),
                {| visited := visited st3; counter := S (counter st3) |})
      end.
Proof. reflexivity. Qed.

Local Arguments collectDeps : simpl never.

Lemma collectDeps_visited fuel id st r st' :
  collectDeps g fuel id st = Some (r, st') → visited st ⊆ visited st'.
Proof.
  intros Hret%collectDeps_returns. destruct r as [t|]; simpl in Hret.
  - apply Hret.
  - by destruct Hret as [-> _].
Qed.

(** *** Fuel *)

Lemma forEachDep_fuel_mono
    (rec rec' : string → Collector → option (option ModuleNode * Collector))
    deps depsNodes st x :
  (∀ dep st y, rec dep st = Some y → rec' dep st = Some y) →
  forEachDep rec deps depsNodes st = Some x →
  forEachDep rec' deps depsNodes st = Some x.
Proof.
  intros Hrec. revert depsNodes st. induction deps as [|dep rest IH]; intros acc st; [done|].
  simpl. destruct (rec dep st) as [[node st1]|] eqn:Hcall; [|done].
  rewrite (Hrec _ _ _ Hcall). simpl. apply IH.
Qed.

Lemma collectDeps_fuel_mono fuel fuel' id st x :
  fuel ≤ fuel' → collectDeps g fuel id st = Some x → collectDeps g fuel' id st = Some x.
Proof.
  revert fuel' id st x. induction fuel as [|fuel IH]; intros fuel' id st x Hle; [done|].
  destruct fuel' as [|fuel']; [lia|]. rewrite !collectDeps_S. cbv zeta.
  destruct (rejected id st); [done|]. destruct (g !! id) as [info|]; [|done].
  assert (Hrec : ∀ dep st y, collectDeps g fuel dep st = Some y →
                             collectDeps g fuel' dep st = Some y)
    by (intros dep st0 y; apply IH; lia).
  destruct (forEachDep _ (importedIds info) [] _) as [[d1 st2]|] eqn:H1; [|done].
  rewrite (forEachDep_fuel_mono _ _ _ _ _ _ Hrec H1). simpl.
  destruct (forEachDep _ (dynamicallyImportedIds info) d1 st2) as [[d2 st3]|] eqn:H2;
    [|done].
  by rewrite (forEachDep_fuel_mono _ _ _ _ _ _ Hrec H2).
Qed.

(** *** Termination *)

Local Abbreviation unvisited st := (size (depIds g ∖ visited st)).

Lemma forEachDep_terminates fuel deps depsNodes st :
  (∀ dep st, dep ∈ depIds g → unvisited st ≤ fuel →
             is_Some (collectDeps g (S fuel) dep st)) →
  (∀ dep, dep ∈ deps → dep ∈ depIds g) →
  unvisited st ≤ fuel →
  ∃ x, forEachDep (collectDeps g (S fuel)) deps depsNodes st = Some x ∧
       visited st ⊆ visited x.2.
Proof.
  intros Hrec. revert depsNodes st.
  induction deps as [|dep rest IH]; intros acc st Hdeps Hst.
  { by eexists. }
  destruct (Hrec dep st) as [[node st1] Hcall]; [apply Hdeps; left | done |].
  cbn [forEachDep]. rewrite Hcall. simpl.
  pose proof (collectDeps_visited _ _ _ _ _ Hcall) as Hv.
  destruct (IH (match node with Some n => acc ++ [n] | None => acc end) st1)
    as (x & Hrun & Hvx).
  - intros d Hd. apply Hdeps. by right.
  - etrans; [|exact Hst]. apply subseteq_size. set_solver.
  - exists x. split; [done|]. set_solver.
Qed.

Lemma collectDeps_terminates_dep fuel id st :
  id ∈ depIds g → unvisited st ≤ fuel → is_Some (collectDeps g (S fuel) id st).
Proof.
  revert id st. induction fuel as [|fuel IH]; intros id st Hid Hst;
    rewrite collectDeps_S; destruct (rejected id st) eqn:Hrej; try done.
  - apply rejected_false in Hrej as (_ & Hfresh & _).
    assert (Hin : id ∈ depIds g ∖ visited st) by set_solver.
    assert (Hzero : unvisited st = 0) by lia.
    apply size_empty_inv in Hzero. set_solver.
  - apply rejected_false in Hrej as (_ & Hfresh & _).
    set (st1 := {| visited := {[id]} ∪ visited st; counter := counter st |}).
    assert (Hst1 : unvisited st1 ≤ fuel).
    { assert (unvisited st1 < unvisited st); [|lia].
      apply subset_size. simpl. split; [set_solver|].
      intros Hsub. assert (id ∈ depIds g ∖ visited st) as Hin by set_solver.
      apply Hsub in Hin. set_solver. }
    cbv zeta. fold st1. destruct (g !! id) as [info|] eqn:Hinfo; [|done].
    destruct (forEachDep_terminates fuel (importedIds info) [] st1 IH
                (λ d, depIds_static _ _ _ d Hinfo) Hst1) as ([d1 st2] & -> & Hv2).
    simpl.
    destruct (forEachDep_terminates fuel (dynamicallyImportedIds info) d1 st2 IH
                (λ d, depIds_dynamic _ _ _ d Hinfo)) as ([d2 st3] & -> & _); [|done].
    etrans; [|exact Hst1]. apply subseteq_size. simpl in Hv2. set_solver.
Qed.

Lemma collectDeps_terminates id st : is_Some (collectDeps g (enoughFuel g) id st).
Proof.
  unfold enoughFuel. rewrite collectDeps_S. destruct (rejected id st); [done|].
  cbv zeta.
  set (st1 := {| visited := {[id]} ∪ visited st; counter := counter st |}).
  assert (Hst1 : unvisited st1 ≤ size (depIds g)) by (apply subseteq_size; set_solver).
  destruct (g !! id) as [info|] eqn:Hinfo; [|done].
  destruct (forEachDep_terminates (size (depIds g)) (importedIds info) [] st1
              (collectDeps_terminates_dep (size (depIds g)))
              (λ d, depIds_static _ _ _ d Hinfo) Hst1) as ([d1 st2] & -> & Hv2).
  simpl.
  destruct (forEachDep_terminates (size (depIds g)) (dynamicallyImportedIds info) d1 st2
              (collectDeps_terminates_dep (size (depIds g)))
              (λ d, depIds_dynamic _ _ _ d Hinfo)) as ([d2 st3] & -> & _); [|done].
  etrans; [|exact Hst1]. apply subseteq_size. simpl in Hv2. set_solver.
Qed.

End Collect.

(** X12: the tree walk of an entry always completes, with one and the same
    result for every recursion bound from [enoughFuel] on, cyclic imports
    included; it yields no tree exactly when the entry is empty or holds
    the text node_modules. *)
Theorem tree_walk_terminates g entry :
  ∃ r, (∀ k, collectEntry g (enoughFuel g + k) entry = Some r) ∧
       (r = None ↔ entry = "" ∨ Js.includes "node_modules" entry = true).
Proof.
  set (st := {| visited := ∅; counter := 1 |}).
  destruct (collectDeps_terminates g entry st) as [[r st'] Hrun].
  exists r. split.
  - intros k. unfold collectEntry. fold st.
    assert (Hle : enoughFuel g ≤ enoughFuel g + k) by lia.
    by rewrite (collectDeps_fuel_mono g _ _ _ _ _ Hle Hrun).
  - apply collectDeps_returns in Hrun. destruct r as [t|]; simpl in Hrun.
    + destruct Hrun as [(Hne & _ & Hclean)%rejected_false _]. split; [done|].
      intros [?|?]; congruence.
    + destruct Hrun as [_ Hrej]. split; [intros _|done].
      unfold rejected in Hrej. simpl in Hrej.
      rewrite bool_decide_eq_false_2, orb_false_r in Hrej by set_solver.
      apply orb_true_iff in Hrej as [Ht|Hn]; [left|by right].
      by destruct entry.
Qed.

(** X13: in the tree of an entry the root is the entry and the [order]
    fields count the nodes in the order in which the calls return: read
    subtrees first and from left to right, they are 1, 2, ..., N, and the
    order of the root is N, the number of nodes of the tree. *)
Theorem tree_numbered_in_postorder g fuel entry t :
  collectEntry g fuel entry = Some (Some t) →
  m_id t = entry ∧
  (postorder t).*2 = seq 1 (length (postorder t)) ∧
  m_order t = length (postorder t).
Proof.
  unfold collectEntry.
  destruct (collectDeps g fuel entry _) as [[r st']|] eqn:Hrun; [|done].
  simpl. intros [= ->]. apply collectDeps_returns in Hrun as (_ & Hid & Hc & Hcol).
  split_and!; [done | apply Hcol |].
  pose proof (col_counter _ _ _ _ Hcol) as Hcount. simpl in Hcount. lia.
Qed.

Lemma tree_numbered_in_postorder_witness :
  ∃ t, collectEntry Runs.specGraph 5 "/proj/src/main.ts" = Some (Some t) ∧
       m_order t = 3 ∧ (postorder t).*2 = [1; 2; 3].
Proof.
  exists (mkNode "/proj/src/main.ts"
            [mkNode "/proj/src/a.ts" [] 1; mkNode "/proj/src/b.ts" [] 2] 3).
  assert (Hrun : collectEntry Runs.specGraph 5 "/proj/src/main.ts" =
                 Some (Some (mkNode "/proj/src/main.ts"
                   [mkNode "/proj/src/a.ts" [] 1; mkNode "/proj/src/b.ts" [] 2] 3)))
    by (vm_compute; reflexivity).
  split; [exact Hrun|].
  destruct (tree_numbered_in_postorder _ _ _ _ Hrun) as (_ & Hseq & Hord).
  split; [exact Hord | exact Hseq].
Defined.

(** X14: in the tree of an entry no module occurs twice, and no node has
    an empty id or an id that holds the text node_modules. *)
Theorem tree_ids_distinct g fuel entry t :
  collectEntry g fuel entry = Some (Some t) →
  NoDup (postorder t).*1 ∧
  ∀ x, x ∈ (postorder t).*1 → x ≠ "" ∧ Js.includes "node_modules" x = false.
Proof.
  unfold collectEntry.
  destruct (collectDeps g fuel entry _) as [[r st']|] eqn:Hrun; [|done].
  simpl. intros [= ->]. apply collectDeps_returns in Hrun as (_ & _ & _ & Hcol).
  split; apply Hcol.
Qed.

Lemma tree_ids_distinct_witness :
  ∃ t, collectEntry Runs.cycleGraph 5 "/proj/src/a.ts" = Some (Some t) ∧
       NoDup (postorder t).*1.
Proof.
  destruct (collectEntry Runs.cycleGraph 5 "/proj/src/a.ts") as [[t|]|] eqn:Hrun.
  - exists t. split; [reflexivity|]. exact (proj1 (tree_ids_distinct _ _ _ _ Hrun)).
  - vm_compute in Hrun. discriminate Hrun.
  - vm_compute in Hrun. discriminate Hrun.
Defined.





End TreeFacts.

(** ** Determinism (C9) *)

(** *** The sort of the engine *)







(** *** Oracles that agree on what is reached *)

Section Agreement.

Context `{PathLib}.
Variable root : string.
Variable supportedExts : gset string.
Variables moduleGraph1 moduleGraph2 : gmap string ModuleInfo.




End Agreement.


